(** * A shallow embedding of the character-level Markov chain generator
    of [src/main.cc]: the [markov_chain] engine (table construction and
    [generate]), the [std::mt19937] generator it owns, and the text
    normalisation done by the free function [generate] before training. *)

From Stdlib Require Import String Ascii.
From Stdlib Require Import ZArith List Bool Lia Permutation.
Import ListNotations.
Open Scope Z_scope.

(** ** [std::mt19937] as implemented by libstdc++ ([mersenne_twister_engine]
    with w = 32, n = 624, m = 397, r = 31). *)
Module MT19937.

Definition w32 : Z := 2 ^ 32.
Definition state_size : nat := 624.
Definition shift_size : nat := 397.
Definition xor_mask : Z := 2567483615.          (* 0x9908b0df *)
Definition upper_mask : Z := 2147483648.        (* ~0 << 31, on 32 bits *)
Definition lower_mask : Z := 2147483647.        (* ~upper_mask *)
Definition tempering_b : Z := 2636928640.       (* 0x9d2c5680 *)
Definition tempering_c : Z := 4022730752.       (* 0xefc60000 *)
Definition init_mult : Z := 1812433253.

(** The engine: the array [_M_x] and the position [_M_p]. *)
Record mt19937 := { mt_x : list Z; mt_p : nat }.

(** [seed(sd)]: [_M_x[0] = sd mod 2^w];
    [_M_x[i] = (f * (x ^ (x >> (w-2))) + i) mod 2^w]; [_M_p = n]. *)
Fixpoint seed_fill (k : nat) (i : Z) (prev : Z) : list Z :=
  match k with
  | O => []
  | S k' =>
      let x := (init_mult * Z.lxor prev (Z.shiftr prev 30) + i) mod w32 in
      x :: seed_fill k' (i + 1) x
  end.

Definition seed (sd : Z) : mt19937 :=
  let x0 := sd mod w32 in
  {| mt_x := x0 :: seed_fill (state_size - 1) 1 x0; mt_p := state_size |}.

(** One element of [_M_gen_rand]: combine the upper bit of [xk] with the
    lower bits of [xk1], shift and apply the matrix. *)
Definition twist (xk xk1 : Z) : Z :=
  let y := Z.lor (Z.land xk upper_mask) (Z.land xk1 lower_mask) in
  Z.lxor (Z.shiftr y 1) (if Z.odd y then xor_mask else 0).

Fixpoint set_nth (l : list Z) (k : nat) (v : Z) : list Z :=
  match l, k with
  | [], _ => []
  | _ :: l', O => v :: l'
  | a :: l', S k' => a :: set_nth l' k' v
  end.

(** [_M_gen_rand] updates the array in place, for k = 0 .. n-1:
    [_M_x[k] = _M_x[(k+m) mod n] ^ twist(_M_x[k], _M_x[(k+1) mod n])];
    the three loops of libstdc++ are exactly this one loop split at the
    points where [(k+m) mod n] and [(k+1) mod n] wrap around. *)
Fixpoint gen_rand_loop (todo k : nat) (x : list Z) : list Z :=
  match todo with
  | O => x
  | S todo' =>
      let xk := nth k x 0 in
      let xk1 := nth (Nat.modulo (k + 1) state_size) x 0 in
      let xkm := nth (Nat.modulo (k + shift_size) state_size) x 0 in
      gen_rand_loop todo' (S k) (set_nth x k (Z.lxor xkm (twist xk xk1)))
  end.

Definition gen_rand (x : list Z) : list Z := gen_rand_loop state_size 0 x.

Definition temper (z : Z) : Z :=
  let z := Z.lxor z (Z.land (Z.shiftr z 11) (w32 - 1)) in
  let z := Z.lxor z (Z.land (Z.shiftl z 7) tempering_b) in
  let z := Z.lxor z (Z.land (Z.shiftl z 15) tempering_c) in
  Z.lxor z (Z.shiftr z 18).

(** [operator()]. *)
Definition next (g : mt19937) : Z * mt19937 :=
  let x := if (state_size <=? mt_p g)%nat then gen_rand (mt_x g) else mt_x g in
  let p := if (state_size <=? mt_p g)%nat then O else mt_p g in
  (temper (nth p x 0), {| mt_x := x; mt_p := S p |}).

End MT19937.

(** ** Strings of the engine: [std::basic_string<char32_t>] as a list of
    code points. *)

Definition tstring := list Z.

Definition space : Z := 32.
Definition newline : Z := 10.

Definition tstring_eqb (a b : tstring) : bool :=
  if list_eq_dec Z.eq_dec a b then true else false.

(** [str.substr(pos, count)]: the count is clamped to the end of the
    string.  (It throws when [pos > size()], which never happens at the
    call sites below.) *)
Definition substr (s : tstring) (pos count : nat) : tstring :=
  firstn count (skipn pos s).

(** [str[i]]: [str[size()]] is the terminating [char32_t()]; any larger
    index is undefined behaviour, [None] here. *)
Definition at_ (s : tstring) (i : nat) : option Z :=
  if (i <? length s)%nat then nth_error s i
  else if (i =? length s)%nat then Some 0 else None.

(** [ngram.starts_with(' ')]. *)
Definition starts_with_space (s : tstring) : bool :=
  match s with
  | c :: _ => c =? space
  | [] => false
  end.

(** Unsigned subtraction of two [size_t] values. *)
Definition size_t_sub (a b : Z) : Z :=
  if b <=? a then a - b else 2 ^ 64 + a - b.

(** ** The table [std::unordered_map<tstring, std::vector<tchar>>], as an
    association list without duplicate keys, in insertion order. *)

Definition table := list (tstring * list Z).

Fixpoint find (t : table) (k : tstring) : option (list Z) :=
  match t with
  | [] => None
  | (k', v) :: t' => if tstring_eqb k k' then Some v else find t' k
  end.

(** [chain[k].push_back(c)]: [operator[]] inserts an empty vector for a
    missing key. *)
Fixpoint push_back (t : table) (k : tstring) (c : Z) : table :=
  match t with
  | [] => [(k, [c])]
  | (k', v) :: t' =>
      if tstring_eqb k k' then (k', v ++ [c]) :: t' else (k', v) :: push_back t' k c
  end.

Definition keys (t : table) : list tstring := map fst t.

(** ** Outcomes of a run: a returned value, undefined behaviour (division
    by zero, out-of-range access), a loop that has not finished within
    the fuel given to it, or an exception thrown by the library. *)

Inductive outcome (A : Type) : Type :=
| Ret (a : A)
| Undefined
| OutOfFuel
| Throws.
Arguments Ret {A} a.
Arguments Undefined {A}.
Arguments OutOfFuel {A}.
Arguments Throws {A}.

Definition bind {A B} (m : outcome A) (f : A -> outcome B) : outcome B :=
  match m with
  | Ret a => f a
  | Undefined => Undefined
  | OutOfFuel => OutOfFuel
  | Throws => Throws
  end.

(** The [result.reserve(length)] test at the head of an unfolded
    [generate]: a throwing reserve cannot produce a [Ret]. *)
Ltac reserve_step :=
  match goal with
  | |- context [negb (?f ?l)] => destruct (f l); cbn [negb]; [|intros ?; discriminate]
  end.

Notation "x <- m ;; k" := (bind m (fun x => k)) (at level 61, m at next level, right associativity).
Notation "' p <- m ;; k" := (bind m (fun x => match x with p => k end))
  (at level 61, p pattern, m at next level, right associativity).

(** ** The constructor's loop:
    [for (size_t i = 0; i < text.size() - order; i++)
       chain[text.substr(i, order)].push_back(text[i + order]);]
    The loop stops at the bound or at the first undefined access; it runs
    at most [text.size() + 1] times, which is the fuel given to it. *)

Fixpoint ctor_loop (fuel : nat) (text : tstring) (order i : nat) (bound : Z)
    (chain : table) : option table :=
  match fuel with
  | O => None
  | S fuel' =>
      if Z.of_nat i <? bound then
        match at_ text (i + order) with
        | None => None
        | Some c => ctor_loop fuel' text order (S i) bound (push_back chain (substr text i order) c)
        end
      else Some chain
  end.

Definition build_chain (text : tstring) (order : nat) : option table :=
  ctor_loop (S (length text)) text order 0
    (size_t_sub (Z.of_nat (length text)) (Z.of_nat order)) [].

(** ** The engine [markov_chain<tchar>], over any generator with a seeding
    function and a draw function, and over the iteration order of the
    [unordered_map], which the standard leaves unspecified. *)

Section Engine.

Variable St : Type.
(** [rng()]: one draw, and the state it leaves behind. *)
Variable rng_next : St -> Z * St.
(** [rng.seed(seed)]. *)
Variable rng_seed : Z -> St.
(** The sequence [chain.begin() .. chain.end()]. *)
Variable iter_order : table -> table.
(** [result.reserve(length)]: [false] when it throws, [std::length_error]
    for a length above [max_size()] or [std::bad_alloc] when the allocation
    fails. *)
Variable reserve_ok : nat -> bool.

Record markov_chain := mk_markov_chain {
  order : nat;
  chain : table;
  rng : St;
  seed : Z
}.

(** [markov_chain(text, order, _seed)]; [None] is undefined behaviour
    in the loop. *)
Definition markov_chain_ctor (text : tstring) (ord : nat) (sd : Z) : option markov_chain :=
  match build_chain text ord with
  | Some c => Some (mk_markov_chain ord c (rng_seed sd) sd)
  | None => None
  end.

(** The first loop of [generate]:
    [auto seed = chain.begin(); std::advance(seed, rng() % chain.size());
     ngram = seed->first; if (!ngram.starts_with(' ')) continue;]
    A modulo by [chain.size() = 0] is undefined behaviour. *)
Fixpoint select_seed (fuel : nat) (c : table) (st : St) : outcome (tstring * St) :=
  match fuel with
  | O => OutOfFuel
  | S fuel' =>
      let (r, st1) := rng_next st in
      if (length c =? 0)%nat then Undefined
      else
        match nth_error (iter_order c) (Z.to_nat (r mod Z.of_nat (length c))) with
        | None => Undefined
        | Some (ngram, _) =>
            if starts_with_space ngram then Ret (ngram, st1)
            else select_seed fuel' c st1
        end
  end.

(** The second loop of [generate], with [k = length - i] iterations left:
    [auto it = chain.find(ngram); if (it == chain.end()) break;
     result += it->second[rng() % it->second.size()];
     ngram = result.substr(i + 1, order);] *)
Fixpoint extend_loop (c : table) (ord : nat) (k i : nat) (ngram result : tstring)
    (st : St) : outcome (tstring * St) :=
  match k with
  | O => Ret (result, st)
  | S k' =>
      match find c ngram with
      | None => Ret (result, st)
      | Some succ =>
          let (r, st1) := rng_next st in
          if (length succ =? 0)%nat then Undefined
          else
            let result' := result ++ [nth (Z.to_nat (r mod Z.of_nat (length succ))) succ 0] in
            extend_loop c ord k' (S i) (substr result' (S i) ord) result' st1
      end
  end.

(** [tstring generate(size_t length)]: [result.reserve(length)] first,
    then the two loops; the engine is returned with the state its
    generator is left in. *)
Definition generate (fuel : nat) (mc : markov_chain) (length : nat)
    : outcome (tstring * markov_chain) :=
  if negb (reserve_ok length) then Throws else
  '(ngram, st1) <- select_seed fuel (chain mc) (rng mc) ;;
  '(result, st2) <- extend_loop (chain mc) (order mc) length 0 ngram ngram st1 ;;
  Ret (result, mk_markov_chain (order mc) (chain mc) st2 (seed mc)).

(** A sequence of [generate] calls on one engine, as the loop
    [for (i = 0; i < lines; i++) mc.generate(length)] makes them. *)
Fixpoint generate_calls (fuel : nat) (mc : markov_chain) (lengths : list nat)
    : outcome (list tstring * markov_chain) :=
  match lengths with
  | [] => Ret ([], mc)
  | len :: rest =>
      '(out, mc1) <- generate fuel mc len ;;
      '(outs, mc2) <- generate_calls fuel mc1 rest ;;
      Ret (out :: outs, mc2)
  end.

(** [m] draws of the generator. *)
Fixpoint advance (m : nat) (st : St) : St :=
  match m with
  | O => st
  | S m' => advance m' (snd (rng_next st))
  end.

End Engine.

Arguments mk_markov_chain {St}.
Arguments markov_chain_ctor {St}.
Arguments select_seed {St}.
Arguments extend_loop {St}.
Arguments generate {St}.
Arguments generate_calls {St}.
Arguments advance {St}.

(** The engine as the program instantiates it: [markov_chain<char32_t>]
    with [std::mt19937].  For concrete runs the hash table is taken to
    iterate in insertion order; libstdc++ iterates in bucket order, so the
    results about runs in general are stated for any iteration order. *)
Definition insertion_order (t : table) : table := t.

(** [std::u32string::max_size()] of libstdc++ (GCC 12) on a 64-bit
    target: [(a - 1) / 2] where [a = PTRDIFF_MAX / sizeof(char32_t)] is
    the allocator's [max_size()]. *)
Definition string_max_size : Z := ((2 ^ 63 - 1) / 4 - 1) / 2.

(** [result.reserve(length)] in concrete runs: [std::length_error] above
    [max_size()]; the allocation itself is taken to succeed. *)
Definition libstdcxx_reserve (n : nat) : bool := Z.of_nat n <=? string_max_size.

Abbreviation mt_ctor := (@markov_chain_ctor MT19937.mt19937 MT19937.seed).
Abbreviation mt_generate := (@generate MT19937.mt19937 MT19937.next insertion_order libstdcxx_reserve).
Abbreviation mt_generate_calls := (@generate_calls MT19937.mt19937 MT19937.next insertion_order libstdcxx_reserve).

Definition codes (s : String.string) : tstring :=
  map (fun a => Z.of_nat (Ascii.nat_of_ascii a)) (String.list_ascii_of_string s).

(** ** The table as the spec describes it (used to compare with the
    constructor): the successors of a window [w] are the characters
    [C[i+k]], in increasing [i], over every [i] from [0] to
    [len(C) - k - 1] with [C[i..i+k) = w]; [w] is a key when it has one. *)

Definition ref_successors (C : tstring) (k : nat) (w : tstring) : list Z :=
  map (fun i => nth (i + k) C 0)
    (filter (fun i => tstring_eqb (substr C i k) w) (seq 0 (length C - k))).

Definition ref_lookup (C : tstring) (k : nat) (w : tstring) : option (list Z) :=
  match ref_successors C k w with
  | [] => None
  | l => Some l
  end.

(** ** Concrete runs with [std::mt19937] and insertion order, for the
    examples below. *)

Definition engine_of (o : option (markov_chain MT19937.mt19937)) : markov_chain MT19937.mt19937 :=
  match o with
  | Some mc => mc
  | None => mk_markov_chain 0 [] (MT19937.seed 0) 0
  end.

Definition result_of {A} (d : A) (o : outcome A) : A :=
  match o with Ret a => a | _ => d end.

Definition output {A B} (o : outcome (A * B)) : outcome A :=
  p <- o ;; Ret (fst p).

Definition demo_text : tstring := codes "the cat sat on the mat the cat ran".
Definition demo_engine : markov_chain MT19937.mt19937 := engine_of (mt_ctor demo_text 3 42).

(** ** Normalisation of the input bytes ([std::string]), done by the free
    function [generate] before it builds the engine. *)

Definition bytes := list Z.

(** [split_lines]: [cur] is [str.substr(start, i - start)]; the text after
    the last newline is a line only when it is non-empty. *)
Fixpoint split_lines_from (cur : bytes) (s : bytes) : list bytes :=
  match s with
  | [] => match cur with [] => [] | _ => [cur] end
  | c :: s' =>
      if c =? newline then cur :: split_lines_from [] s'
      else split_lines_from (cur ++ [c]) s'
  end.

Definition split_lines (s : bytes) : list bytes := split_lines_from [] s.

(** [fmt::join(lines, ...)] with a newline between two lines. *)
Fixpoint join_lines (ls : list bytes) : bytes :=
  match ls with
  | [] => []
  | [l] => l
  | l :: ls' => l ++ newline :: join_lines ls'
  end.

(** The predicate given to [std::erase_if]:
    [line.empty() || line.size() < min_line]. *)
Definition short_line (min_line : nat) (line : bytes) : bool :=
  ((length line =? 0) || (length line <? min_line))%nat.

(** [if (min_line) { split; erase_if; join }]. *)
Definition remove_short_lines (min_line : nat) (input : bytes) : bytes :=
  if (min_line =? 0)%nat then input
  else join_lines (filter (fun l => negb (short_line min_line l)) (split_lines input)).

(** [while (c = strchr(c, '\n'), c) *c = ' ';]: [strchr] stops at the
    first NUL byte, so only the newlines before it are replaced. *)
Fixpoint replace_newlines (s : bytes) : bytes :=
  match s with
  | [] => []
  | c :: s' =>
      if c =? 0 then s
      else (if c =? newline then space else c) :: replace_newlines s'
  end.

(** [ascii_chars]: the lower and upper case Latin letters and
    apostrophe, double quote, [.] [,] [-] [_] [:] [;] [!] [?], the two
    parentheses and space. *)
Definition ascii_chars : list Z :=
  map Z.of_nat (seq 97 26) ++ map Z.of_nat (seq 65 26)
  ++ [39; 34; 46; 44; 45; 95; 58; 59; 33; 63; 40; 41; 32].

(** [if (--ascii) std::erase_if(input, !ascii_chars.contains(c))]. *)
Definition remove_non_ascii (ascii : bool) (s : bytes) : bytes :=
  if ascii then filter (fun c => existsb (Z.eqb c) ascii_chars) s else s.

(** The input as it is handed to [to_utf32]: short lines removed, newlines
    replaced, non-ASCII removed, then [to_lower], which applies
    [std::tolower] of the process locale to every byte. *)
Definition prepare_input (tolower : Z -> Z) (min_line : nat) (ascii : bool)
    (input : bytes) : bytes :=
  map tolower (remove_non_ascii ascii (replace_newlines (remove_short_lines min_line input))).

(** [std::tolower] in the C locale. *)
Definition c_tolower (c : Z) : Z :=
  if (65 <=? c) && (c <=? 90) then c + 32 else c.

(** Splitting on every newline, as the spec says it: a text with [j]
    newlines has [j + 1] lines, the last one possibly empty. *)
Fixpoint spec_split_from (cur : bytes) (s : bytes) : list bytes :=
  match s with
  | [] => [cur]
  | c :: s' =>
      if c =? newline then cur :: spec_split_from [] s'
      else spec_split_from (cur ++ [c]) s'
  end.

Definition spec_split (s : bytes) : list bytes := spec_split_from [] s.

(** ** [trim], applied to each generated line before it is printed. *)

(** The bytes [trim] skips: space and tab. *)
Definition is_blank (c : Z) : bool := (c =? space) || (c =? 9).

(** The first loop, from index [i] on:
    [for (i = 0; i < str.size(); i++) if (str[i] is not blank) { start = i; break; }];
    [start] stays 0 when every byte is blank. *)
Fixpoint trim_start_loop (s : bytes) (i : nat) : nat :=
  match s with
  | [] => 0
  | c :: s' => if negb (is_blank c) then i else trim_start_loop s' (S i)
  end.

(** [str[i]] for a [size_t] index [i]: index [size()] reads the
    terminator, a larger one is undefined behaviour. *)
Definition at_z (s : bytes) (i : Z) : option Z :=
  if i <? Z.of_nat (length s) then nth_error s (Z.to_nat i)
  else if i =? Z.of_nat (length s) then Some 0 else None.

(** The second loop:
    [for (size_t i = str.size() - 1; i >= start; i--)
       if (str[i] is not blank) { end = i + 1; break; }]
    with the unsigned decrement of [i]; it ends with [end = str.size()]
    when the condition fails. *)
Fixpoint trim_end_loop (fuel : nat) (s : bytes) (start : nat) (i : Z) : outcome nat :=
  match fuel with
  | O => OutOfFuel
  | S fuel' =>
      if Z.of_nat start <=? i then
        match at_z s i with
        | None => Undefined
        | Some c =>
            if negb (is_blank c) then Ret (S (Z.to_nat i))
            else trim_end_loop fuel' s start (size_t_sub i 1)
        end
      else Ret (length s)
  end.

(** [trim(str)]: [str.substr(start, end - start)]. *)
Definition trim (s : bytes) : outcome bytes :=
  let start := trim_start_loop s 0 in
  end_ <- trim_end_loop (S (S (length s))) s start (size_t_sub (Z.of_nat (length s)) 1) ;;
  Ret (substr s start (end_ - start)).

(** ** Reading standard input in [main] under [--stdin]. *)

(** [std::getline(std::cin, line)]: the bytes up to the next newline,
    which is extracted and dropped, or up to the end of the input. *)
Fixpoint getline_from (line s : bytes) : bytes * bytes :=
  match s with
  | [] => (line, [])
  | c :: s' => if c =? newline then (line, s') else getline_from (line ++ [c]) s'
  end.

(** The call fails (the stream converts to false) when it reaches the end
    of the input before extracting any character. *)
Definition getline (s : bytes) : option (bytes * bytes) :=
  match s with
  | [] => None
  | _ => Some (getline_from [] s)
  end.

(** [while (std::getline(std::cin, line)) input += line, then a newline]: the loop of [main]. *)
Fixpoint read_stdin_loop (fuel : nat) (s input : bytes) : outcome bytes :=
  match fuel with
  | O => OutOfFuel
  | S fuel' =>
      match getline s with
      | None => Ret input
      | Some (line, rest) => read_stdin_loop fuel' rest (input ++ line ++ [newline])
      end
  end.

(** Every successful call extracts at least one byte, so [size + 1]
    iterations are enough. *)
Definition read_stdin (s : bytes) : outcome bytes := read_stdin_loop (S (length s)) s [].

(** ** Helpers of the proofs. *)

Definition opt_app (o : option (list Z)) (l : list Z) : option (list Z) :=
  match o, l with
  | None, [] => None
  | None, _ => Some l
  | Some v, _ => Some (v ++ l)
  end.

(** One step of the constructor's loop at index [j]. *)
Definition ctor_step (text : tstring) (k : nat) (t : table) (j : nat) : table :=
  push_back t (substr text j k) (nth (j + k) text 0).

(** Every entry has a key of length [k] and a non-empty successor list. *)
Definition entries_wf (k : nat) (t : table) : Prop :=
  forall key succ, In (key, succ) t -> length key = k /\ succ <> [].

(** Every character of [res] from index [ord] on is a successor, in the
    table [c], of the [ord] characters before it. *)
Definition windows_ok (c : table) (ord : nat) (res : tstring) : Prop :=
  forall p, (ord <= p < length res)%nat ->
  exists succ, find c (substr res (p - ord) ord) = Some succ /\ In (nth p res 0) succ.

(** The number of characters stored in the table, over all its entries. *)
Definition total_successors (t : table) : nat :=
  list_sum (map (fun e => length (snd e)) t).

(** The lower case letters and the other bytes of [ascii_chars]. *)
Definition lower_ascii_chars : list Z :=
  map Z.of_nat (seq 97 26) ++ [39; 34; 46; 44; 45; 95; 58; 59; 33; 63; 40; 41; 32].

(** A value of [uint_fast32_t] within the 32 bits of the engine. *)
Definition in32 (z : Z) : Prop := 0 <= z < 2 ^ 32.

(** ** Lemmas on the table. *)

(** The generator of the model gives the first output of [std::mt19937]
    seeded with its default seed 5489. *)
Example mt_first_5489 : fst (MT19937.next (MT19937.seed 5489)) = 3499211612.
Proof. vm_compute. reflexivity. Qed.

Lemma tstring_eqb_spec (a b : tstring) : reflect (a = b) (tstring_eqb a b).
Proof.
  unfold tstring_eqb. destruct (list_eq_dec Z.eq_dec a b); constructor; assumption.
Qed.

Lemma tstring_eqb_refl (a : tstring) : tstring_eqb a a = true.
Proof. destruct (tstring_eqb_spec a a); congruence. Qed.

Lemma tstring_eqb_sym (a b : tstring) : tstring_eqb a b = tstring_eqb b a.
Proof.
  destruct (tstring_eqb_spec a b), (tstring_eqb_spec b a); congruence.
Qed.

Lemma find_push_back (t : table) (k w : tstring) (c : Z) :
  find (push_back t k c) w = if tstring_eqb w k then opt_app (find t w) [c] else find t w.
Proof.
  induction t as [|[k' v] t IH]; simpl.
  - destruct (tstring_eqb w k); reflexivity.
  - destruct (tstring_eqb_spec k k') as [->|Hne]; simpl.
    + destruct (tstring_eqb w k'); reflexivity.
    + destruct (tstring_eqb_spec w k') as [->|Hw]; simpl.
      * destruct (tstring_eqb_spec k' k); [congruence|reflexivity].
      * rewrite IH. reflexivity.
Qed.

Lemma keys_push_back (t : table) (k : tstring) (c : Z) :
  keys (push_back t k c) = if in_dec (list_eq_dec Z.eq_dec) k (keys t) then keys t else keys t ++ [k].
Proof.
  induction t as [|[k' v] t IH]; simpl; [reflexivity|].
  destruct (tstring_eqb_spec k k') as [->|Hne]; simpl.
  - destruct (list_eq_dec Z.eq_dec k' k'); [reflexivity|congruence].
  - rewrite IH.
    destruct (list_eq_dec Z.eq_dec k' k) as [E|Hne2]; [congruence|].
    destruct (in_dec (list_eq_dec Z.eq_dec) k (keys t)); reflexivity.
Qed.

Lemma NoDup_push_back (t : table) (k : tstring) (c : Z) :
  NoDup (keys t) -> NoDup (keys (push_back t k c)).
Proof.
  intros H. rewrite keys_push_back.
  destruct (in_dec (list_eq_dec Z.eq_dec) k (keys t)) as [_|Hn]; [assumption|].
  apply NoDup_app; auto using NoDup_cons, NoDup_nil.
  intros x Hx Hx'. destruct Hx' as [<-|[]]. contradiction.
Qed.

Lemma In_push_back (t : table) (k key : tstring) (c : Z) (succ : list Z) :
  In (key, succ) (push_back t k c) ->
  In (key, succ) t \/ (key = k /\ exists v, succ = v ++ [c]).
Proof.
  induction t as [|[k' v] t IH]; simpl.
  - intros [E|[]]. inversion E; subst. right. split; [reflexivity|]. exists []. reflexivity.
  - destruct (tstring_eqb_spec k k') as [->|Hne]; simpl.
    + intros [E|H].
      * inversion E; subst. right. eauto.
      * left. right. assumption.
    + intros [E|H].
      * left. left. assumption.
      * destruct (IH H) as [H'|H']; [left; right; assumption|right; assumption].
Qed.

Lemma ctor_loop_fold (text : tstring) (k : nat) :
  (k <= length text)%nat ->
  forall d i fuel t, (i + d = length text - k)%nat -> (d < fuel)%nat ->
  ctor_loop fuel text k i (Z.of_nat (length text - k)) t
  = Some (fold_left (ctor_step text k) (seq i d) t).
Proof.
  intros Hk d. induction d as [|d IH]; intros i fuel t Hi Hf;
    destruct fuel as [|fuel]; try lia; simpl.
  - replace (Z.of_nat i <? Z.of_nat (length text - k)) with false by (symmetry; apply Z.ltb_ge; lia).
    reflexivity.
  - replace (Z.of_nat i <? Z.of_nat (length text - k)) with true by (symmetry; apply Z.ltb_lt; lia).
    unfold at_.
    replace ((i + k <? length text)%nat) with true by (symmetry; apply Nat.ltb_lt; lia).
    rewrite (nth_error_nth' text 0) by lia.
    apply IH; lia.
Qed.

Lemma build_chain_fold (text : tstring) (k : nat) :
  (k <= length text)%nat ->
  build_chain text k = Some (fold_left (ctor_step text k) (seq 0 (length text - k)) []).
Proof.
  intros Hk. unfold build_chain.
  replace (size_t_sub (Z.of_nat (length text)) (Z.of_nat k)) with (Z.of_nat (length text - k)).
  - apply ctor_loop_fold; lia.
  - unfold size_t_sub. replace (Z.of_nat k <=? Z.of_nat (length text)) with true
      by (symmetry; apply Z.leb_le; lia). lia.
Qed.

Lemma build_chain_short (text : tstring) (k : nat) (t : table) :
  (length text < k)%nat -> build_chain text k = Some t -> t = [].
Proof.
  intros Hk. unfold build_chain, size_t_sub.
  destruct (Z.leb_spec (Z.of_nat k) (Z.of_nat (length text))) as [H|_]; [lia|].
  cbn [ctor_loop].
  destruct (Z.ltb_spec (Z.of_nat 0) (2 ^ 64 + Z.of_nat (length text) - Z.of_nat k)) as [_|_].
  - unfold at_.
    destruct (Nat.ltb_spec (0 + k) (length text)); [lia|].
    destruct (Nat.eqb_spec (0 + k) (length text)); [lia|].
    discriminate.
  - congruence.
Qed.

(** A table the constructor builds is the fold of its steps, or empty
    (the latter only for an order past [2^64], which no [size_t] has). *)
Lemma build_chain_cases (text : tstring) (k : nat) (t : table) :
  build_chain text k = Some t ->
  ((k <= length text)%nat /\ t = fold_left (ctor_step text k) (seq 0 (length text - k)) [])
  \/ t = [].
Proof.
  intros H. destruct (Nat.lt_ge_cases (length text) k) as [Hl|Hl].
  - right. exact (build_chain_short text k t Hl H).
  - left. split; [assumption|]. rewrite build_chain_fold in H by assumption. congruence.
Qed.

Lemma find_ctor_fold (C : tstring) (k : nat) (w : tstring) :
  forall l t, find (fold_left (ctor_step C k) l t) w
  = opt_app (find t w)
      (map (fun i => nth (i + k) C 0) (filter (fun i => tstring_eqb (substr C i k) w) l)).
Proof.
  induction l as [|j l IH]; intros t; simpl.
  - destruct (find t w); simpl; [rewrite app_nil_r|]; reflexivity.
  - rewrite IH. unfold ctor_step at 1. rewrite find_push_back.
    rewrite (tstring_eqb_sym w).
    destruct (tstring_eqb (substr C j k) w); simpl; [|reflexivity].
    destruct (find t w); simpl; [rewrite <- app_assoc|]; reflexivity.
Qed.

Lemma NoDup_ctor_fold (C : tstring) (k : nat) :
  forall l t, NoDup (keys t) -> NoDup (keys (fold_left (ctor_step C k) l t)).
Proof.
  induction l as [|j l IH]; intros t H; simpl; [assumption|].
  apply IH. apply NoDup_push_back. assumption.
Qed.

Lemma substr_length (s : tstring) (i k : nat) :
  (i + k <= length s)%nat -> length (substr s i k) = k.
Proof.
  intros H. unfold substr. rewrite length_firstn, length_skipn. lia.
Qed.

Lemma entries_wf_ctor_fold (C : tstring) (k : nat) :
  forall l t, (forall i, In i l -> (i + k <= length C)%nat) ->
  entries_wf k t -> entries_wf k (fold_left (ctor_step C k) l t).
Proof.
  induction l as [|j l IH]; intros t Hl Ht; simpl; [assumption|].
  apply IH; [intros i Hi; apply Hl; right; assumption|].
  intros key succ Hin. unfold ctor_step in Hin.
  destruct (In_push_back _ _ _ _ _ Hin) as [H | [-> [v ->] ] ].
  - apply Ht. assumption.
  - split.
    + apply substr_length. apply Hl. left. reflexivity.
    + intros E. destruct v; discriminate.
Qed.

Lemma build_chain_wf (C : tstring) (k : nat) (t : table) :
  build_chain C k = Some t -> entries_wf k t.
Proof.
  intros H. destruct (build_chain_cases C k t H) as [[Hk ->] | ->].
  - apply entries_wf_ctor_fold.
    + intros i Hi. apply in_seq in Hi. lia.
    + intros key succ [].
  - intros key succ [].
Qed.

Section EngineFacts.

Variable St : Type.
Variable rng_next : St -> Z * St.
Variable rng_seed : Z -> St.
Variable iter_order : table -> table.
Variable reserve_ok : nat -> bool.

Lemma ctor_chain_wf (C : tstring) (k : nat) (sd : Z) (mc : markov_chain St) :
  markov_chain_ctor rng_seed C k sd = Some mc ->
  order St mc = k /\ entries_wf k (chain St mc).
Proof.
  unfold markov_chain_ctor. destruct (build_chain C k) as [t|] eqn:E; [|discriminate].
  intros H. inversion H; subst. simpl. split; [reflexivity|].
  apply build_chain_wf with C. assumption.
Qed.

Lemma generate_keeps_chain (fuel len : nat) (mc mc' : markov_chain St) (out : tstring) :
  generate rng_next iter_order reserve_ok fuel mc len = Ret (out, mc') ->
  chain St mc' = chain St mc /\ order St mc' = order St mc /\ seed St mc' = seed St mc.
Proof.
  unfold generate. reserve_step. destruct (select_seed rng_next iter_order fuel (chain St mc) (rng St mc))
    as [[ngram st1]| | |]; simpl; try discriminate.
  destruct (extend_loop rng_next (chain St mc) (order St mc) len 0 ngram ngram st1)
    as [[result st2]| | |]; simpl; try discriminate.
  intros H. inversion H; subst. simpl. auto.
Qed.

Lemma generate_calls_keep_chain (fuel : nat) :
  forall lens mc mc' outs,
  generate_calls rng_next iter_order reserve_ok fuel mc lens = Ret (outs, mc') -> chain St mc' = chain St mc.
Proof.
  induction lens as [|len lens IH]; intros mc mc' outs H; simpl in H.
  - inversion H; reflexivity.
  - destruct (generate rng_next iter_order reserve_ok fuel mc len) as [[out mc1]| | |] eqn:E1;
      simpl in H; try discriminate.
    destruct (generate_calls rng_next iter_order reserve_ok fuel mc1 lens) as [[outs' mc2]| | |] eqn:E2;
      simpl in H; try discriminate.
    inversion H; subst.
    rewrite (IH _ _ _ E2). apply (generate_keeps_chain _ _ _ _ _ E1).
Qed.

End EngineFacts.

(** ** The constructor. *)

(** C1: for every corpus [C] and order [k] with [len(C) > k], the
    constructor succeeds, and its table is the reference map: its keys are
    distinct, and looking up any window [w] gives exactly the characters
    [C[i+k]], in increasing [i], for the [i] in [0 .. len(C)-k-1] with
    [C[i..i+k) = w] (no entry when there is none).  Any sequence of later
    [generate] calls leaves the table as it is. *)
Theorem ctor_table_is_reference (St : Type) (rng_next : St -> Z * St) (rng_seed : Z -> St)
    (iter_order : table -> table) (reserve_ok : nat -> bool) (C : tstring) (k : nat) (sd : Z) :
  (k < length C)%nat ->
  exists mc, markov_chain_ctor rng_seed C k sd = Some mc /\
    NoDup (keys (chain St mc)) /\
    (forall w, find (chain St mc) w = ref_lookup C k w) /\
    (forall fuel lens outs mc',
       generate_calls rng_next iter_order reserve_ok fuel mc lens = Ret (outs, mc') ->
       chain St mc' = chain St mc).
Proof.
  intros Hk. unfold markov_chain_ctor. rewrite build_chain_fold by lia.
  eexists. split; [reflexivity|]. simpl. split; [|split].
  - apply NoDup_ctor_fold. constructor.
  - intros w. rewrite find_ctor_fold. simpl. unfold ref_lookup, ref_successors.
    destruct (map _ _); reflexivity.
  - intros fuel lens outs mc' H. exact (generate_calls_keep_chain _ _ _ _ _ _ _ _ _ H).
Qed.

Lemma ctor_table_is_reference_witness :
  (3 < length (codes "the cat sat"))%nat /\
  exists mc, markov_chain_ctor MT19937.seed (codes "the cat sat") 3 42 = Some mc /\
    NoDup (keys (chain MT19937.mt19937 mc)) /\
    (forall w, find (chain MT19937.mt19937 mc) w = ref_lookup (codes "the cat sat") 3 w) /\
    (forall fuel lens outs mc',
       generate_calls MT19937.next insertion_order libstdcxx_reserve fuel mc lens = Ret (outs, mc') ->
       chain MT19937.mt19937 mc' = chain MT19937.mt19937 mc).
Proof.
  split; [vm_compute; lia|].
  apply (ctor_table_is_reference MT19937.mt19937 MT19937.next MT19937.seed insertion_order libstdcxx_reserve).
  vm_compute. lia.
Defined.

(** C2: for every corpus [C] and order [k] with [len(C) > k], every key of
    the constructor's table has length exactly [k] and every successor
    list is non-empty. *)
Theorem ctor_table_wf (St : Type) (rng_seed : Z -> St) (C : tstring) (k : nat) (sd : Z) :
  (k < length C)%nat ->
  exists mc, markov_chain_ctor rng_seed C k sd = Some mc /\
    forall key succ, In (key, succ) (chain St mc) -> length key = k /\ succ <> [].
Proof.
  intros Hk. unfold markov_chain_ctor.
  destruct (build_chain C k) as [t|] eqn:E.
  - eexists. split; [reflexivity|]. simpl. apply build_chain_wf with C. assumption.
  - rewrite build_chain_fold in E by lia. discriminate.
Qed.

Lemma ctor_table_wf_witness :
  (1 < length (codes "a b"))%nat /\
  exists mc, markov_chain_ctor MT19937.seed (codes "a b") 1 7 = Some mc /\
    forall key succ, In (key, succ) (chain MT19937.mt19937 mc) -> length key = 1%nat /\ succ <> [].
Proof.
  split; [vm_compute; lia|].
  apply (ctor_table_wf MT19937.mt19937 MT19937.seed (codes "a b") 1 7).
  vm_compute. lia.
Defined.

(** ** Runs of [generate]. *)

Section EngineRuns.

Variable St : Type.
Variable rng_next : St -> Z * St.
Variable iter_order : table -> table.
Variable reserve_ok : nat -> bool.

Lemma advance_add (a b : nat) (st : St) :
  advance rng_next a (advance rng_next b st) = advance rng_next (b + a) st.
Proof.
  revert st. induction b as [|b IH]; intros st; simpl; [reflexivity|]. apply IH.
Qed.

Lemma mod_index_lt (r : Z) (n : nat) :
  (n <> 0)%nat -> (Z.to_nat (r mod Z.of_nat n) < n)%nat.
Proof.
  intros Hn. pose proof (Z.mod_pos_bound r (Z.of_nat n) ltac:(lia)). lia.
Qed.

(** The seed loop returns a key it found in [iter_order c], which
    starts with a space, after at least one draw. *)
Lemma select_seed_ret (fuel : nat) (c : table) (st st' : St) (ngram : tstring) :
  select_seed rng_next iter_order fuel c st = Ret (ngram, st') ->
  (exists succ, In (ngram, succ) (iter_order c)) /\ starts_with_space ngram = true /\
  exists m, (1 <= m)%nat /\ st' = advance rng_next m st.
Proof.
  revert st. induction fuel as [|fuel IH]; intros st H; simpl in H; [discriminate|].
  destruct (rng_next st) as [r st1] eqn:Er.
  destruct (length c =? 0)%nat; [discriminate|].
  destruct (nth_error (iter_order c) _) as [[key succ]|] eqn:En; [|discriminate].
  destruct (starts_with_space key) eqn:Es.
  - inversion H; subst. split; [exists succ; eapply nth_error_In; eassumption|].
    split; [assumption|]. exists 1%nat. split; [lia|]. simpl. rewrite Er. reflexivity.
  - destruct (IH st1 H) as [Hin [Hs [m [Hm ->]]]]. split; [assumption|]. split; [assumption|].
    exists (S m). split; [lia|]. simpl. rewrite Er. reflexivity.
Qed.

Lemma select_seed_mono (fuel fuel' : nat) (c : table) (st : St) (x : tstring * St) :
  (fuel <= fuel')%nat ->
  select_seed rng_next iter_order fuel c st = Ret x ->
  select_seed rng_next iter_order fuel' c st = Ret x.
Proof.
  revert fuel' st. induction fuel as [|fuel IH]; intros fuel' st Hle H; simpl in H; [discriminate|].
  destruct fuel' as [|fuel']; [lia|]. simpl.
  destruct (rng_next st) as [r st1].
  destruct (length c =? 0)%nat; [discriminate|].
  destruct (nth_error (iter_order c) _) as [[key succ]|]; [|discriminate].
  destruct (starts_with_space key); [assumption|]. apply IH; [lia|assumption].
Qed.

(** Without a key that starts with a space, the seed loop never ends:
    whatever the fuel, it runs out. *)
Lemma select_seed_no_space (c : table) :
  c <> [] -> Permutation (iter_order c) c ->
  (forall key succ, In (key, succ) c -> starts_with_space key = false) ->
  forall fuel st, select_seed rng_next iter_order fuel c st = OutOfFuel.
Proof.
  intros Hne Hperm Hns fuel. induction fuel as [|fuel IH]; intros st; simpl; [reflexivity|].
  destruct (rng_next st) as [r st1].
  destruct (Nat.eqb_spec (length c) 0) as [E|E].
  - destruct c; [contradiction|discriminate].
  - destruct (nth_error (iter_order c) _) as [[key succ]|] eqn:En.
    + rewrite (Hns key succ); [apply IH|].
      apply (Permutation_in _ Hperm). eapply nth_error_In. eassumption.
    + exfalso. apply nth_error_None in En.
      rewrite (Permutation_length Hperm) in En.
      pose proof (mod_index_lt r (length c) E). lia.
Qed.

(** The extension loop only appends, at most one character per
    iteration, drawing once per appended character. *)
Lemma extend_loop_ret (c : table) (ord : nat) :
  forall k i ngram result st res st',
  extend_loop rng_next c ord k i ngram result st = Ret (res, st') ->
  exists rest m, res = result ++ rest /\ (length rest <= k)%nat /\ st' = advance rng_next m st.
Proof.
  induction k as [|k IH]; intros i ngram result st res st' H; simpl in H.
  - inversion H; subst. exists [], 0%nat. rewrite app_nil_r. auto.
  - destruct (find c ngram) as [succ|].
    + destruct (rng_next st) as [r st1] eqn:Er.
      destruct (length succ =? 0)%nat; [discriminate|].
      destruct (IH _ _ _ _ _ _ H) as [rest [m [-> [Hl ->]]]].
      eexists (_ :: rest), (S m). rewrite <- app_assoc. simpl. rewrite Er.
      split; [reflexivity|]. simpl. split; [lia|reflexivity].
    + inversion H; subst. exists [], 0%nat. rewrite app_nil_r. simpl. split; [reflexivity|]. split; [lia|reflexivity].
Qed.

Lemma generate_ret (fuel len : nat) (mc mc' : markov_chain St) (out : tstring) :
  generate rng_next iter_order reserve_ok fuel mc len = Ret (out, mc') ->
  exists ngram st1 rest m,
    select_seed rng_next iter_order fuel (chain St mc) (rng St mc) = Ret (ngram, st1) /\
    out = ngram ++ rest /\ (length rest <= len)%nat /\
    rng St mc' = advance rng_next m st1 /\
    mc' = mk_markov_chain (order St mc) (chain St mc) (rng St mc') (seed St mc).
Proof.
  unfold generate. reserve_step.
  destruct (select_seed rng_next iter_order fuel (chain St mc) (rng St mc))
    as [[ngram st1]| | |] eqn:Es; simpl; try discriminate.
  destruct (extend_loop rng_next (chain St mc) (order St mc) len 0 ngram ngram st1)
    as [[result st2]| | |] eqn:Ex; simpl; try discriminate.
  intros H. inversion H; subst. clear H.
  destruct (extend_loop_ret _ _ _ _ _ _ _ _ _ Ex) as [rest [m [-> [Hl ->]]]].
  exists ngram, st1, rest, m. simpl. auto.
Qed.

Lemma generate_mono (fuel fuel' len : nat) (mc : markov_chain St) x :
  (fuel <= fuel')%nat ->
  generate rng_next iter_order reserve_ok fuel mc len = Ret x ->
  generate rng_next iter_order reserve_ok fuel' mc len = Ret x.
Proof.
  intros Hle. unfold generate. reserve_step.
  destruct (select_seed rng_next iter_order fuel (chain St mc) (rng St mc)) as [y| | |] eqn:Es;
    simpl; try discriminate.
  rewrite (select_seed_mono _ _ _ _ _ Hle Es). simpl. auto.
Qed.

Lemma generate_calls_mono (fuel fuel' : nat) :
  (fuel <= fuel')%nat ->
  forall lens mc x,
  generate_calls rng_next iter_order reserve_ok fuel mc lens = Ret x ->
  generate_calls rng_next iter_order reserve_ok fuel' mc lens = Ret x.
Proof.
  intros Hle lens. induction lens as [|len lens IH]; intros mc x H; simpl in *; [assumption|].
  destruct (generate rng_next iter_order reserve_ok fuel mc len) as [[out mc1]| | |] eqn:E1;
    simpl in H; try discriminate.
  rewrite (generate_mono _ _ _ _ _ Hle E1). simpl.
  destruct (generate_calls rng_next iter_order reserve_ok fuel mc1 lens) as [y| | |] eqn:E2;
    simpl in H; try discriminate.
  rewrite (IH _ _ E2). simpl. assumption.
Qed.

End EngineRuns.

(** C3: for a fixed corpus, order and seed, a sequence of [generate]
    calls is deterministic: two engines built from the same arguments give
    the same outputs call for call (whatever fuel lets the runs finish).
    The second call runs on the engine left by the first, whose generator
    state is the initial one advanced by at least one draw. *)
Theorem generate_calls_deterministic (St : Type) (rng_next : St -> Z * St) (rng_seed : Z -> St)
    (iter_order : table -> table) (reserve_ok : nat -> bool) (C : tstring) (k : nat) (sd : Z) (lens : list nat)
    (fuel1 fuel2 : nat) (mc1 mc2 : markov_chain St) (r1 r2 : list tstring * markov_chain St) :
  markov_chain_ctor rng_seed C k sd = Some mc1 ->
  markov_chain_ctor rng_seed C k sd = Some mc2 ->
  generate_calls rng_next iter_order reserve_ok fuel1 mc1 lens = Ret r1 ->
  generate_calls rng_next iter_order reserve_ok fuel2 mc2 lens = Ret r2 ->
  r1 = r2 /\
  forall len1 len2 rest out1 out2 outs mcf,
    lens = len1 :: len2 :: rest -> r1 = (out1 :: out2 :: outs, mcf) ->
    exists mcA mcB m,
      generate rng_next iter_order reserve_ok fuel1 mc1 len1 = Ret (out1, mcA) /\
      generate rng_next iter_order reserve_ok fuel1 mcA len2 = Ret (out2, mcB) /\
      chain St mcA = chain St mc1 /\
      (1 <= m)%nat /\ rng St mcA = advance rng_next m (rng St mc1).
Proof.
  intros H1 H2 G1 G2. split.
  - rewrite H1 in H2. inversion H2; subst mc2.
    apply (generate_calls_mono _ _ _ _ fuel1 (Nat.max fuel1 fuel2)) in G1; [|lia].
    apply (generate_calls_mono _ _ _ _ fuel2 (Nat.max fuel1 fuel2)) in G2; [|lia].
    congruence.
  - intros len1 len2 rest out1 out2 outs mcf -> ->. simpl in G1.
    destruct (generate rng_next iter_order reserve_ok fuel1 mc1 len1) as [[o1 mcA]| | |] eqn:E1;
      simpl in G1; try discriminate.
    destruct (generate rng_next iter_order reserve_ok fuel1 mcA len2) as [[o2 mcB]| | |] eqn:E2;
      simpl in G1; try discriminate.
    destruct (generate_calls rng_next iter_order reserve_ok fuel1 mcB rest) as [[os mcC]| | |];
      simpl in G1; try discriminate.
    inversion G1; subst o1 o2 os mcC.
    destruct (generate_ret _ _ _ _ _ _ _ _ _ E1) as [ngram [st1 [rest1 [m [Es [_ [_ [Hrng _]]]]]]]].
    destruct (select_seed_ret _ _ _ _ _ _ _ _ Es) as [_ [_ [m1 [Hm1 ->]]]].
    exists mcA, mcB, (m1 + m)%nat. split; [first [exact E1 | reflexivity]|]. split; [exact E2|].
    split; [exact (proj1 (generate_keeps_chain _ _ _ _ _ _ _ _ _ E1))|].
    split; [lia|]. rewrite Hrng. apply advance_add.
Qed.

Lemma generate_calls_deterministic_witness :
  let r := result_of ([], demo_engine) (mt_generate_calls 100 demo_engine [8%nat; 8%nat]) in
  mt_ctor demo_text 3 42 = Some demo_engine /\
  mt_generate_calls 100 demo_engine [8%nat; 8%nat] = Ret r /\
  r = r /\
  forall len1 len2 rest out1 out2 outs mcf,
    [8%nat; 8%nat] = len1 :: len2 :: rest -> r = (out1 :: out2 :: outs, mcf) ->
    exists mcA mcB m,
      mt_generate 100 demo_engine len1 = Ret (out1, mcA) /\
      mt_generate 100 mcA len2 = Ret (out2, mcB) /\
      chain MT19937.mt19937 mcA = chain MT19937.mt19937 demo_engine /\
      (1 <= m)%nat /\ rng MT19937.mt19937 mcA = advance MT19937.next m (rng MT19937.mt19937 demo_engine).
Proof.
  intros r.
  assert (H1 : mt_ctor demo_text 3 42 = Some demo_engine) by (vm_compute; reflexivity).
  assert (G : mt_generate_calls 100 demo_engine [8%nat; 8%nat] = Ret r) by (vm_compute; reflexivity).
  split; [exact H1|]. split; [exact G|].
  exact (generate_calls_deterministic MT19937.mt19937 MT19937.next MT19937.seed insertion_order libstdcxx_reserve
           demo_text 3 42 [8%nat; 8%nat] 100 100 demo_engine demo_engine r r H1 H1 G G).
Defined.

(** ** Construction from a corpus no longer than the order. *)

(** C4, as the code does it: the constructor makes no length check.  For
    a corpus of length exactly [k] it succeeds with an empty table.  A later
    [generate] call then either throws at [result.reserve(length)] (a
    length above [max_size()], such as [--length -1], or a failed
    allocation) or reaches [rng() % chain.size()] with a size of zero,
    which is undefined behaviour. *)
Theorem ctor_accepts_corpus_of_order_length (St : Type) (rng_next : St -> Z * St)
    (rng_seed : Z -> St) (iter_order : table -> table) (reserve_ok : nat -> bool) (C : tstring) (k : nat) (sd : Z) :
  length C = k ->
  exists mc, markov_chain_ctor rng_seed C k sd = Some mc /\ chain St mc = [] /\
    forall fuel len, (0 < fuel)%nat ->
      generate rng_next iter_order reserve_ok fuel mc len
      = if reserve_ok len then Undefined else Throws.
Proof.
  intros Hk. unfold markov_chain_ctor. rewrite build_chain_fold by lia.
  replace (length C - k)%nat with 0%nat by lia. simpl.
  eexists. split; [reflexivity|]. split; [reflexivity|].
  intros fuel len Hf. destruct fuel as [|fuel]; [lia|]. unfold generate.
  destruct (reserve_ok len); [|reflexivity]. simpl.
  destruct (rng_next (rng_seed sd)). reflexivity.
Qed.

Lemma ctor_accepts_corpus_of_order_length_witness :
  length (codes "ab") = 2%nat /\
  exists mc, mt_ctor (codes "ab") 2 5 = Some mc /\ chain MT19937.mt19937 mc = [] /\
    forall fuel len, (0 < fuel)%nat ->
      mt_generate fuel mc len = if libstdcxx_reserve len then Undefined else Throws.
Proof.
  split; [reflexivity|].
  exact (ctor_accepts_corpus_of_order_length MT19937.mt19937 MT19937.next MT19937.seed
           insertion_order libstdcxx_reserve (codes "ab") 2 5 eq_refl).
Defined.

(** C4 fails: a corpus of length equal to the order is accepted, the
    constructor returns an engine with an empty table and no error. *)
Lemma ctor_insufficient_corpus_counterexample :
  (length (codes "ab") <= 2)%nat /\
  mt_ctor (codes "ab") 2 0 = Some (mk_markov_chain 2 [] (MT19937.seed 0) 0).
Proof. split; [vm_compute; lia | reflexivity]. Qed.

(** ** The seed-selection loop. *)

(** C5, as the code does it: [generate] makes no check before its
    seed-selection loop.  On an engine whose table is non-empty and has no
    key starting with a space, the loop draws forever once
    [result.reserve(length)] has succeeded: for every fuel the call has
    not returned, so [generate] neither returns nor reports the missing
    key.  The only other outcome is the exception of a failing reserve. *)
Theorem generate_diverges_without_space_key (St : Type) (rng_next : St -> Z * St)
    (iter_order : table -> table) (reserve_ok : nat -> bool) (mc : markov_chain St) :
  chain St mc <> [] ->
  Permutation (iter_order (chain St mc)) (chain St mc) ->
  (forall key succ, In (key, succ) (chain St mc) -> starts_with_space key = false) ->
  forall fuel len,
    generate rng_next iter_order reserve_ok fuel mc len
    = if reserve_ok len then OutOfFuel else Throws.
Proof.
  intros Hne Hperm Hns fuel len. unfold generate.
  destruct (reserve_ok len); [|reflexivity]. cbn [negb].
  rewrite (select_seed_no_space _ _ _ _ Hne Hperm Hns). reflexivity.
Qed.

Lemma generate_diverges_without_space_key_witness :
  mt_ctor (codes "abc") 1 0 = Some (mk_markov_chain 1 [([97], [98]); ([98], [99])] (MT19937.seed 0) 0) /\
  forall fuel len,
    mt_generate fuel (mk_markov_chain 1 [([97], [98]); ([98], [99])] (MT19937.seed 0) 0) len
    = if libstdcxx_reserve len then OutOfFuel else Throws.
Proof.
  split; [reflexivity|].
  apply generate_diverges_without_space_key.
  - discriminate.
  - apply Permutation_refl.
  - intros key succ [E|[E|[]]]; inversion E; reflexivity.
Defined.

(** C5 fails: for the corpus [abc] with order 1 the table has the keys
    [a] and [b], none of which starts with a space; whatever order the
    table iterates in, [generate(10)] reports no error and does not
    terminate. *)
Lemma generate_no_space_key_counterexample :
  mt_ctor (codes "abc") 1 0 = Some (mk_markov_chain 1 [([97], [98]); ([98], [99])] (MT19937.seed 0) 0) /\
  forall (iter_order : table -> table),
    Permutation (iter_order [([97], [98]); ([98], [99])]) [([97], [98]); ([98], [99])] ->
    forall fuel,
      select_seed MT19937.next iter_order fuel [([97], [98]); ([98], [99])] (MT19937.seed 0) = OutOfFuel /\
      generate MT19937.next iter_order libstdcxx_reserve fuel
        (mk_markov_chain 1 [([97], [98]); ([98], [99])] (MT19937.seed 0) 0) 10 = OutOfFuel.
Proof.
  split; [reflexivity|]. intros iter_order Hperm fuel.
  assert (H : select_seed MT19937.next iter_order fuel [([97], [98]); ([98], [99])] (MT19937.seed 0) = OutOfFuel).
  { apply select_seed_no_space; [discriminate | exact Hperm |].
    intros key succ [E|[E|[]]]; inversion E; reflexivity. }
  split; [exact H|]. unfold generate. change (libstdcxx_reserve 10) with true. cbn [negb].
  simpl chain. simpl rng. rewrite H. reflexivity.
Qed.

(** ** Length of the output. *)

(** C6 is contradicted by the code: with [--length 1] the result is
    longer than one character.  The extension loop runs [length] times
    after the seed ngram is appended, so the result has up to
    [order + length] characters: for the corpus [ a a a a] (it starts with
    a space), order 2 and seed 0, [generate(1)] returns [ a ], three
    characters. *)
Theorem generate_exceeds_length :
  output (mt_generate 10 (engine_of (mt_ctor (codes " a a a a") 2 0)) 1) = Ret (codes " a ") /\
  length (codes " a ") = 3%nat.
Proof. vm_compute. split; reflexivity. Qed.

(** ** Shape of the output. *)

(** C7: on an engine built by the constructor (the hash table iterating
    over each entry once), a call [generate(0)] that returns gives back
    exactly the seed ngram drawn by the seed loop: a key of the table that
    starts with a space, of length exactly [order]. *)
Theorem generate_zero_is_seed (St : Type) (rng_next : St -> Z * St) (rng_seed : Z -> St)
    (iter_order : table -> table) (reserve_ok : nat -> bool) (C : tstring) (k : nat) (sd : Z) (fuel : nat)
    (mc mc' : markov_chain St) (out : tstring) :
  (forall t, Permutation (iter_order t) t) ->
  markov_chain_ctor rng_seed C k sd = Some mc ->
  generate rng_next iter_order reserve_ok fuel mc 0 = Ret (out, mc') ->
  (exists st, select_seed rng_next iter_order fuel (chain St mc) (rng St mc) = Ret (out, st)) /\
  (exists succ, In (out, succ) (chain St mc)) /\
  starts_with_space out = true /\ length out = k.
Proof.
  intros Hperm Hc Hg.
  destruct (generate_ret _ _ _ _ _ _ _ _ _ Hg) as [ngram [st1 [rest [m [Es [-> [Hl _]]]]]]].
  destruct rest; [|simpl in Hl; lia]. rewrite app_nil_r.
  destruct (select_seed_ret _ _ _ _ _ _ _ _ Es) as [[succ Hin] [Hs _]].
  apply (Permutation_in _ (Hperm (chain St mc))) in Hin.
  destruct (ctor_chain_wf _ _ _ _ _ _ Hc) as [_ Hwf].
  split; [exists st1; exact Es|]. split; [exists succ; exact Hin|].
  split; [exact Hs|]. exact (proj1 (Hwf _ _ Hin)).
Qed.

Lemma generate_zero_is_seed_witness :
  let r := result_of ([], demo_engine) (mt_generate 100 demo_engine 0) in
  mt_ctor demo_text 3 42 = Some demo_engine /\
  mt_generate 100 demo_engine 0 = Ret (fst r, snd r) /\
  (exists st, select_seed MT19937.next insertion_order 100 (chain MT19937.mt19937 demo_engine)
                (rng MT19937.mt19937 demo_engine) = Ret (fst r, st)) /\
  (exists succ, In (fst r, succ) (chain MT19937.mt19937 demo_engine)) /\
  starts_with_space (fst r) = true /\ length (fst r) = 3%nat.
Proof.
  intros r.
  assert (H1 : mt_ctor demo_text 3 42 = Some demo_engine) by (vm_compute; reflexivity).
  assert (G : mt_generate 100 demo_engine 0 = Ret (fst r, snd r)) by (vm_compute; reflexivity).
  split; [exact H1|]. split; [exact G|].
  exact (generate_zero_is_seed MT19937.mt19937 MT19937.next MT19937.seed insertion_order libstdcxx_reserve
           demo_text 3 42 100 demo_engine (snd r) (fst r) (fun t => Permutation_refl t) H1 G).
Defined.

(** C10: on an engine built by the constructor (the hash table iterating
    over each entry once), every output of a call to [generate] that
    returns starts with the seed ngram, a key of the table of length
    [order]; its first code point is a space and it has at least [order]
    code points. *)
Theorem generate_starts_with_space (St : Type) (rng_next : St -> Z * St) (rng_seed : Z -> St)
    (iter_order : table -> table) (reserve_ok : nat -> bool) (C : tstring) (k : nat) (sd : Z) (fuel len : nat)
    (mc mc' : markov_chain St) (out : tstring) :
  (forall t, Permutation (iter_order t) t) ->
  markov_chain_ctor rng_seed C k sd = Some mc ->
  generate rng_next iter_order reserve_ok fuel mc len = Ret (out, mc') ->
  (exists ngram rest, out = ngram ++ rest /\
     (exists succ, In (ngram, succ) (chain St mc)) /\ length ngram = k) /\
  hd_error out = Some space /\ (k <= length out)%nat.
Proof.
  intros Hperm Hc Hg.
  destruct (generate_ret _ _ _ _ _ _ _ _ _ Hg) as [ngram [st1 [rest [m [Es [-> [Hl _]]]]]]].
  destruct (select_seed_ret _ _ _ _ _ _ _ _ Es) as [[succ Hin] [Hs _]].
  apply (Permutation_in _ (Hperm (chain St mc))) in Hin.
  destruct (ctor_chain_wf _ _ _ _ _ _ Hc) as [_ Hwf].
  destruct (Hwf _ _ Hin) as [Hk _].
  split; [exists ngram, rest; split; [reflexivity|]; split; [exists succ; exact Hin|exact Hk]|].
  split.
  - destruct ngram as [|c ngram]; [discriminate|]. simpl in Hs |- *.
    apply Z.eqb_eq in Hs. subst c. reflexivity.
  - rewrite length_app. lia.
Qed.

Lemma generate_starts_with_space_witness :
  let r := result_of ([], demo_engine) (mt_generate 100 demo_engine 12) in
  mt_ctor demo_text 3 42 = Some demo_engine /\
  mt_generate 100 demo_engine 12 = Ret (fst r, snd r) /\
  (exists ngram rest, fst r = ngram ++ rest /\
     (exists succ, In (ngram, succ) (chain MT19937.mt19937 demo_engine)) /\ length ngram = 3%nat) /\
  hd_error (fst r) = Some space /\ (3 <= length (fst r))%nat.
Proof.
  intros r.
  assert (H1 : mt_ctor demo_text 3 42 = Some demo_engine) by (vm_compute; reflexivity).
  assert (G : mt_generate 100 demo_engine 12 = Ret (fst r, snd r)) by (vm_compute; reflexivity).
  split; [exact H1|]. split; [exact G|].
  exact (generate_starts_with_space MT19937.mt19937 MT19937.next MT19937.seed insertion_order libstdcxx_reserve
           demo_text 3 42 100 12 demo_engine (snd r) (fst r) (fun t => Permutation_refl t) H1 G).
Defined.

(** ** Normalisation. *)

Lemma split_lines_filter (keep : bytes -> bool) :
  keep [] = false ->
  forall s cur, filter keep (split_lines_from cur s) = filter keep (spec_split_from cur s).
Proof.
  intros Hk s. induction s as [|c s IH]; intros cur; simpl.
  - destruct cur as [|a cur]; simpl; [rewrite Hk|]; reflexivity.
  - destruct (c =? newline); simpl; [|apply IH].
    destruct (keep cur); rewrite IH; reflexivity.
Qed.

Lemma spec_split_line (l : bytes) :
  ~ In newline l -> forall cur rest, spec_split_from cur (l ++ rest) = spec_split_from (cur ++ l) rest.
Proof.
  induction l as [|c l IH]; intros Hl cur rest; simpl.
  - rewrite app_nil_r. reflexivity.
  - destruct (Z.eqb_spec c newline) as [E|E]; [subst; exfalso; apply Hl; left; reflexivity|].
    rewrite IH by (intros H; apply Hl; right; exact H).
    rewrite <- app_assoc. reflexivity.
Qed.

Lemma spec_split_newline (cur rest : bytes) :
  spec_split_from cur (newline :: rest) = cur :: spec_split_from [] rest.
Proof. reflexivity. Qed.

Lemma split_lines_single (s : bytes) :
  ~ In newline s -> forall cur, split_lines_from cur s = match cur ++ s with [] => [] | l => [l] end.
Proof.
  induction s as [|c s IH]; intros Hs cur; simpl.
  - rewrite app_nil_r. destruct cur; reflexivity.
  - destruct (Z.eqb_spec c newline) as [E|E]; [subst; exfalso; apply Hs; left; reflexivity|].
    rewrite IH by (intros H; apply Hs; right; exact H).
    rewrite <- app_assoc. reflexivity.
Qed.

Lemma replace_newlines_id (s : bytes) : ~ In newline s -> replace_newlines s = s.
Proof.
  induction s as [|c s IH]; intros Hs; simpl; [reflexivity|].
  destruct (c =? 0); [reflexivity|].
  destruct (Z.eqb_spec c newline) as [E|E]; [subst; exfalso; apply Hs; left; reflexivity|].
  rewrite IH by (intros H; apply Hs; right; exact H). reflexivity.
Qed.

Lemma remove_non_ascii_id (ascii : bool) (s : bytes) :
  (ascii = true -> forall c, In c s -> In c ascii_chars) -> remove_non_ascii ascii s = s.
Proof.
  unfold remove_non_ascii. destruct ascii; [|reflexivity].
  intros H. specialize (H eq_refl). induction s as [|c s IH]; [reflexivity|]. cbn [filter].
  replace (existsb (Z.eqb c) ascii_chars) with true.
  - f_equal. apply IH. intros x Hx. apply H. right. exact Hx.
  - symmetry. apply existsb_exists. exists c. split; [apply H; left; reflexivity|apply Z.eqb_refl].
Qed.

(** C8: with [min_line] filtering enabled, the input is split on every
    newline, exactly the lines of length 0 or below [min_line] are
    dropped, and the others are joined with newlines in their order.  For
    an input of four lines (newline-terminated or not) of lengths 3, 15, 2
    and 20, [min_line = 10] keeps the second and the fourth, in order. *)
Theorem remove_short_lines_spec :
  (forall (min_line : nat) (input : bytes), (0 < min_line)%nat ->
     remove_short_lines min_line input
     = join_lines (filter (fun l => negb ((length l =? 0) || (length l <? min_line)))%nat
                     (spec_split input))) /\
  (forall l1 l2 l3 l4 tail : bytes,
     ~ In newline l1 -> ~ In newline l2 -> ~ In newline l3 -> ~ In newline l4 ->
     length l1 = 3%nat -> length l2 = 15%nat -> length l3 = 2%nat -> length l4 = 20%nat ->
     tail = [] \/ tail = [newline] ->
     remove_short_lines 10 (join_lines [l1; l2; l3; l4] ++ tail) = join_lines [l2; l4]).
Proof.
  assert (Hgen : forall (min_line : nat) (input : bytes), (0 < min_line)%nat ->
     remove_short_lines min_line input
     = join_lines (filter (fun l => negb ((length l =? 0) || (length l <? min_line)))%nat
                     (spec_split input))).
  { intros m input Hm. unfold remove_short_lines.
    replace (m =? 0)%nat with false by (symmetry; apply Nat.eqb_neq; lia).
    unfold split_lines, spec_split. rewrite split_lines_filter; reflexivity. }
  split; [exact Hgen|].
  intros l1 l2 l3 l4 tail N1 N2 N3 N4 L1 L2 L3 L4 Ht.
  rewrite Hgen by lia. unfold spec_split. simpl join_lines.
  repeat (rewrite <- app_assoc; simpl).
  rewrite spec_split_line, app_nil_l, spec_split_newline by assumption.
  rewrite spec_split_line, app_nil_l, spec_split_newline by assumption.
  rewrite spec_split_line, app_nil_l, spec_split_newline by assumption.
  rewrite spec_split_line, app_nil_l by assumption.
  destruct Ht as [-> | ->]; simpl; rewrite L1, L2, L3, L4; reflexivity.
Qed.

Lemma remove_short_lines_spec_witness :
  remove_short_lines 4 (codes "ab") = join_lines (filter (fun l => negb ((length l =? 0) || (length l <? 4)))%nat
                                                   (spec_split (codes "ab"))) /\
  remove_short_lines 10 (join_lines [codes "one"; codes "a line of fifte"; codes "no";
                                     codes "twenty characters ok"] ++ [newline])
  = join_lines [codes "a line of fifte"; codes "twenty characters ok"].
Proof.
  destruct remove_short_lines_spec as [Hgen Hscen]. split.
  - apply Hgen. lia.
  - apply Hscen; [..|right; reflexivity]; try reflexivity;
      vm_compute; intros H; repeat destruct H as [H|H]; try discriminate; exact H.
Defined.

(** C9, as the code does it: a string that is already normalised (fixed
    by [tolower], without newline, and within the allow-list when the
    ASCII filter is on) comes out of the normalisation unchanged when
    short-line filtering is off, or when the string is non-empty and at
    least [min_line] long.  With filtering on, a string without newline
    that is shorter than [min_line] (the empty string included) is a
    single short line, dropped: the normalisation returns the empty
    string. *)
Theorem prepare_input_normalised :
  (forall (tolower : Z -> Z) (min_line : nat) (ascii : bool) (s : bytes),
     min_line = 0%nat \/ (s <> [] /\ (min_line <= length s)%nat) ->
     ~ In newline s ->
     map tolower s = s ->
     (ascii = true -> forall c, In c s -> In c ascii_chars) ->
     prepare_input tolower min_line ascii s = s) /\
  (forall (tolower : Z -> Z) (min_line : nat) (ascii : bool) (s : bytes),
     (0 < min_line)%nat ->
     (length s < min_line)%nat ->
     ~ In newline s ->
     prepare_input tolower min_line ascii s = []).
Proof.
  split.
  - intros tolower min_line ascii s Hm Hnl Hlow Hasc. unfold prepare_input.
    replace (remove_short_lines min_line s) with s.
    + rewrite replace_newlines_id, remove_non_ascii_id; assumption.
    + unfold remove_short_lines. destruct (Nat.eqb_spec min_line 0) as [E|E]; [reflexivity|].
      destruct Hm as [Hm|[Hne Hle]]; [contradiction|].
      unfold split_lines. rewrite split_lines_single by assumption. simpl.
      destruct s as [|c s']; [contradiction|].
      unfold short_line. cbn [filter].
      replace (length (c :: s') <? min_line)%nat with false by (symmetry; apply Nat.ltb_ge; lia).
      reflexivity.
  - intros tolower min_line ascii s Hm Hlt Hnl. unfold prepare_input, remove_short_lines.
    replace (min_line =? 0)%nat with false by (symmetry; apply Nat.eqb_neq; lia).
    unfold split_lines. rewrite split_lines_single by assumption. cbn [app].
    destruct s as [|c s'].
    + unfold remove_non_ascii. destruct ascii; reflexivity.
    + unfold short_line. cbn [filter].
      replace (length (c :: s') <? min_line)%nat with true by (symmetry; apply Nat.ltb_lt; exact Hlt).
      rewrite orb_true_r. unfold remove_non_ascii. destruct ascii; reflexivity.
Qed.

Lemma prepare_input_normalised_witness :
  prepare_input c_tolower 2 true (codes "ab") = codes "ab" /\
  prepare_input c_tolower 5 true (codes "ab") = [].
Proof.
  split.
  - apply (proj1 prepare_input_normalised).
    + right. split; [discriminate | vm_compute; lia].
    + vm_compute. intros [H|[H|[]]]; discriminate.
    + reflexivity.
    + intros _ c [<-|[<-|[]]]; vm_compute; tauto.
  - apply (proj2 prepare_input_normalised).
    + lia.
    + vm_compute. lia.
    + vm_compute. intros [H|[H|[]]]; discriminate.
Defined.

(** C9 fails: [ab] is lowercase, has no newline and is within the
    allow-list, but with [min_line = 5] the normalisation drops it as a
    short line and returns the empty string. *)
Lemma prepare_input_short_counterexample :
  map c_tolower (codes "ab") = codes "ab" /\
  ~ In newline (codes "ab") /\
  (forall c, In c (codes "ab") -> In c ascii_chars) /\
  prepare_input c_tolower 5 true (codes "ab") = [].
Proof.
  split; [reflexivity|]. split; [vm_compute; intros [H|[H|[]]]; discriminate|].
  split; [intros c [<-|[<-|[]]]; vm_compute; tauto|].
  reflexivity.
Qed.

(** * Further properties of the code. *)

(** ** [trim]. *)

Lemma first_such (p : Z -> bool) (s : bytes) :
  existsb p s = true ->
  exists l c rest, s = l ++ c :: rest /\ p c = true /\ Forall (fun x => p x = false) l.
Proof.
  induction s as [|a s IH]; simpl; [discriminate|].
  destruct (p a) eqn:Ea; simpl; intros H.
  - exists [], a, s. auto.
  - destruct (IH H) as [l [c [rest [-> [Hc Hl]]]]].
    exists (a :: l), c, rest. split; [reflexivity|]. split; [assumption|]. constructor; assumption.
Qed.

Lemma trim_start_loop_app (pre rest : bytes) (c : Z) (i : nat) :
  Forall (fun b => is_blank b = true) pre -> is_blank c = false ->
  trim_start_loop (pre ++ c :: rest) i = (i + length pre)%nat.
Proof.
  intros Hpre Hc. revert i. induction Hpre as [|b pre Hb Hpre IH]; intros i; simpl.
  - rewrite Hc. simpl. lia.
  - rewrite Hb. simpl. rewrite IH. lia.
Qed.

Lemma trim_start_loop_blank (s : bytes) (i : nat) :
  Forall (fun b => is_blank b = true) s -> trim_start_loop s i = 0%nat.
Proof.
  intros H. revert i. induction H as [|b s Hb H IH]; intros i; simpl; [reflexivity|].
  rewrite Hb. apply IH.
Qed.

Lemma at_z_in (s : bytes) (i : nat) :
  (i < length s)%nat -> at_z s (Z.of_nat i) = Some (nth i s 0).
Proof.
  intros H. unfold at_z.
  replace (Z.of_nat i <? Z.of_nat (length s)) with true by (symmetry; apply Z.ltb_lt; lia).
  rewrite Nat2Z.id. apply nth_error_nth'. assumption.
Qed.

Lemma at_z_far (s : bytes) :
  Z.of_nat (length s) < 2 ^ 63 -> at_z s (2 ^ 64 + 0 - 1) = None.
Proof.
  intros H. unfold at_z.
  destruct (Z.ltb_spec (2 ^ 64 + 0 - 1) (Z.of_nat (length s))) as [E|E]; [lia|].
  destruct (Z.eqb_spec (2 ^ 64 + 0 - 1) (Z.of_nat (length s))) as [E'|E']; [lia|].
  reflexivity.
Qed.

Lemma trim_end_loop_found (s : bytes) (start e : nat) :
  (start <= e < length s)%nat -> is_blank (nth e s 0) = false ->
  (forall j, (e < j < length s)%nat -> is_blank (nth j s 0) = true) ->
  forall d fuel, (e + d < length s)%nat -> (d < fuel)%nat ->
  trim_end_loop fuel s start (Z.of_nat (e + d)) = Ret (S e).
Proof.
  intros He Hne Hbl d. induction d as [|d IH]; intros fuel Hd Hf;
    destruct fuel as [|fuel]; try lia; cbn [trim_end_loop].
  - rewrite Nat.add_0_r.
    replace (Z.of_nat start <=? Z.of_nat e) with true by (symmetry; apply Z.leb_le; lia).
    rewrite at_z_in by lia. cbn beta iota. rewrite Hne. simpl. rewrite Nat2Z.id. reflexivity.
  - replace (Z.of_nat start <=? Z.of_nat (e + S d)) with true by (symmetry; apply Z.leb_le; lia).
    rewrite at_z_in by lia. cbn beta iota. rewrite Hbl by lia. cbn [negb].
    replace (size_t_sub (Z.of_nat (e + S d)) 1) with (Z.of_nat (e + d)).
    + apply IH; lia.
    + unfold size_t_sub.
      replace (1 <=? Z.of_nat (e + S d)) with true by (symmetry; apply Z.leb_le; lia). lia.
Qed.

Lemma trim_end_loop_blank (s : bytes) :
  Z.of_nat (length s) < 2 ^ 63 ->
  (forall j, (j < length s)%nat -> is_blank (nth j s 0) = true) ->
  forall d fuel, (d < length s)%nat -> (S d < fuel)%nat ->
  trim_end_loop fuel s 0 (Z.of_nat d) = Undefined.
Proof.
  intros Hlen Hbl d. induction d as [|d IH]; intros fuel Hd Hf;
    destruct fuel as [|fuel]; try lia; cbn [trim_end_loop].
  - replace (Z.of_nat 0 <=? Z.of_nat 0) with true by reflexivity.
    rewrite at_z_in by lia. cbn beta iota. rewrite Hbl by lia. cbn [negb].
    destruct fuel as [|fuel]; [lia|]. cbn [trim_end_loop].
    replace (size_t_sub (Z.of_nat 0) 1) with (2 ^ 64 + 0 - 1) by reflexivity.
    replace (Z.of_nat 0 <=? 2 ^ 64 + 0 - 1) with true by reflexivity.
    rewrite at_z_far by assumption. reflexivity.
  - replace (Z.of_nat 0 <=? Z.of_nat (S d)) with true by (symmetry; apply Z.leb_le; lia).
    rewrite at_z_in by lia. cbn beta iota. rewrite Hbl by lia. cbn [negb].
    replace (size_t_sub (Z.of_nat (S d)) 1) with (Z.of_nat d).
    + apply IH; lia.
    + unfold size_t_sub.
      replace (1 <=? Z.of_nat (S d)) with true by (symmetry; apply Z.leb_le; lia). lia.
Qed.

Lemma substr_middle (pre t post : bytes) :
  substr (pre ++ t ++ post) (length pre) (length t) = t.
Proof.
  unfold substr. rewrite skipn_app, skipn_all, Nat.sub_diag, skipn_O, app_nil_l.
  rewrite firstn_app, Nat.sub_diag, firstn_O, app_nil_r. apply firstn_all.
Qed.

Lemma trim_slice_ret (pre t post : bytes) :
  Forall (fun c => is_blank c = true) pre ->
  Forall (fun c => is_blank c = true) post ->
  t <> [] -> is_blank (hd 0 t) = false -> is_blank (last t 0) = false ->
  trim (pre ++ t ++ post) = Ret t.
Proof.
  intros Hpre Hpost Hne Hhd Hlast.
  destruct (exists_last Hne) as [m [z Ez]].
  assert (Hz : is_blank z = false) by (subst t; rewrite last_last in Hlast; exact Hlast).
  unfold trim.
  assert (Hst : trim_start_loop (pre ++ t ++ post) 0 = length pre).
  { destruct t as [|c t']; [contradiction|]. apply trim_start_loop_app; assumption. }
  rewrite Hst.
  set (s := pre ++ t ++ post).
  assert (Hs : s = (pre ++ m) ++ z :: post) by (unfold s; subst t; repeat rewrite <- app_assoc; reflexivity).
  assert (Hn : length s = (length pre + length m + 1 + length post)%nat)
    by (rewrite Hs; repeat rewrite length_app; simpl; lia).
  remember (length pre + length m)%nat as e eqn:Ee.
  assert (He : nth e s 0 = z).
  { rewrite Hs, Ee, <- length_app. apply nth_middle. }
  assert (Hbl : forall j, (e < j < length s)%nat -> is_blank (nth j s 0) = true).
  { intros j Hj. rewrite Hs, app_nth2 by (rewrite length_app; lia).
    rewrite length_app, <- Ee. destruct (j - e)%nat as [|q] eqn:Eq; [lia|].
    simpl. apply (proj1 (Forall_nth _ post) Hpost). lia. }
  replace (size_t_sub (Z.of_nat (length s)) 1) with (Z.of_nat (e + length post)).
  - rewrite (trim_end_loop_found s (length pre) e); [| lia | rewrite He; assumption | assumption | lia | lia].
    cbn [bind]. assert (Hlt : length t = S (length m)) by (rewrite Ez, length_app; simpl; lia).
    replace (S e - length pre)%nat with (length t) by lia.
    unfold s. rewrite substr_middle. reflexivity.
  - unfold size_t_sub. replace (1 <=? Z.of_nat (length s)) with true by (symmetry; apply Z.leb_le; lia).
    lia.
Qed.

Lemma trim_blank_ret (s : bytes) :
  Z.of_nat (length s) < 2 ^ 63 ->
  Forall (fun c => is_blank c = true) s ->
  trim s = Undefined.
Proof.
  intros Hlen Hbl. unfold trim. rewrite trim_start_loop_blank by assumption.
  destruct s as [|c s'] eqn:Es.
  - reflexivity.
  - rewrite <- Es. rewrite <- Es in Hlen, Hbl.
    replace (size_t_sub (Z.of_nat (length s)) 1) with (Z.of_nat (length s - 1)).
    + rewrite (trim_end_loop_blank s Hlen) by (try (intros j Hj; apply (proj1 (Forall_nth _ s) Hbl); lia);
        subst s; simpl; lia).
      reflexivity.
    + assert (length s <> 0%nat) by (subst s; discriminate).
      unfold size_t_sub. replace (1 <=? Z.of_nat (length s)) with true by (symmetry; apply Z.leb_le; lia).
      lia.
Qed.

(** X1: [trim] returns exactly the bytes from the first to the last
    byte that is neither a space nor a tab: for [s = pre ++ t ++ post]
    with [pre] and [post] made of spaces and tabs and [t] starting and
    ending with another byte, [trim s] is [t]. *)
Theorem trim_slice (pre t post : bytes) :
  Forall (fun c => is_blank c = true) pre ->
  Forall (fun c => is_blank c = true) post ->
  t <> [] -> is_blank (hd 0 t) = false -> is_blank (last t 0) = false ->
  trim (pre ++ t ++ post) = Ret t.
Proof. exact (trim_slice_ret pre t post). Qed.

Lemma trim_slice_witness :
  trim ([space] ++ codes "ab c" ++ [space; 9]) = Ret (codes "ab c").
Proof.
  apply trim_slice; [repeat constructor | repeat constructor | discriminate | reflexivity | reflexivity].
Defined.

(** X2: on an empty string, or one made only of spaces and tabs, [trim]
    has undefined behaviour: its second loop decrements its unsigned index
    past 0 and reads [str[SIZE_MAX]]. *)
Theorem trim_blank_undefined (s : bytes) :
  Z.of_nat (length s) < 2 ^ 63 ->
  Forall (fun c => is_blank c = true) s ->
  trim s = Undefined.
Proof. exact (trim_blank_ret s). Qed.

Lemma trim_blank_undefined_witness : trim [space; 9; space] = Undefined /\ trim [] = Undefined.
Proof.
  split.
  - apply trim_blank_undefined; [vm_compute; reflexivity | repeat constructor].
  - apply trim_blank_undefined; [vm_compute; reflexivity | constructor].
Defined.

Lemma blank_decompose (s : bytes) :
  existsb (fun c => negb (is_blank c)) s = true ->
  exists pre t post, s = pre ++ t ++ post /\
    Forall (fun c => is_blank c = true) pre /\ Forall (fun c => is_blank c = true) post /\
    t <> [] /\ is_blank (hd 0 t) = false /\ is_blank (last t 0) = false.
Proof.
  intros H. destruct (first_such _ s H) as [pre [c [rest [-> [Hc Hpre]]]]].
  assert (Hr : existsb (fun c => negb (is_blank c)) (rev (c :: rest)) = true).
  { apply existsb_exists. exists c. split; [apply in_rev; rewrite rev_involutive; left; reflexivity|exact Hc]. }
  destruct (first_such _ _ Hr) as [l2 [z [r2 [E2 [Hz Hl2]]]]].
  assert (E3 : c :: rest = rev r2 ++ z :: rev l2).
  { rewrite <- (rev_involutive (c :: rest)), E2, rev_app_distr. simpl. rewrite <- app_assoc. reflexivity. }
  exists pre, (rev r2 ++ [z]), (rev l2). split; [rewrite E3, <- app_assoc; reflexivity|].
  split; [eapply Forall_impl; [|exact Hpre]; intros x Hx; apply negb_false_iff in Hx; exact Hx|].
  split; [apply Forall_rev; eapply Forall_impl; [|exact Hl2]; intros x Hx; apply negb_false_iff in Hx; exact Hx|].
  split; [destruct (rev r2); discriminate|].
  apply negb_true_iff in Hc, Hz. split.
  - destruct (rev r2) as [|a r]; simpl in E3 |- *; inversion E3; subst; assumption.
  - rewrite last_last. assumption.
Qed.

(** X3: [trim] is idempotent: when it returns [t], [trim t] returns
    [t] again (for any string shorter than [std::string::max_size()]). *)
Theorem trim_idempotent (s t : bytes) :
  Z.of_nat (length s) < 2 ^ 63 -> trim s = Ret t -> trim t = Ret t.
Proof.
  intros Hlen H. destruct (existsb (fun c => negb (is_blank c)) s) eqn:E.
  - destruct (blank_decompose s E) as [pre [t0 [post [-> [Hpre [Hpost [Hne [Hhd Hlast]]]]]]]].
    rewrite trim_slice_ret in H by assumption. inversion H; subst.
    rewrite <- (app_nil_l t), <- (app_nil_r t) at 1.
    apply trim_slice_ret; auto.
  - rewrite trim_blank_ret in H; [discriminate|assumption|].
    apply Forall_forall. intros c Hc. destruct (is_blank c) eqn:Ec; [reflexivity|].
    assert (existsb (fun c => negb (is_blank c)) s = true) by (apply existsb_exists; exists c; rewrite Ec; auto).
    congruence.
Qed.

Lemma trim_idempotent_witness : trim (codes "hi  you") = Ret (codes "hi  you").
Proof.
  apply (trim_idempotent ([9; space] ++ codes "hi  you" ++ [space])); vm_compute; reflexivity.
Defined.


(** ** [split_lines] and joining lines. *)

Lemma split_lines_from_nil (cur s : bytes) :
  split_lines_from cur s = [] -> cur = [] /\ s = [].
Proof.
  revert cur. induction s as [|c s IH]; intros cur H; simpl in H.
  - destruct cur; [auto|discriminate].
  - destruct (c =? newline); [discriminate|].
    destruct (IH _ H) as [H1 _]. destruct cur; discriminate.
Qed.

Lemma join_lines_cons (l : bytes) (ls : list bytes) :
  ls <> [] -> join_lines (l :: ls) = l ++ newline :: join_lines ls.
Proof. destruct ls; [contradiction|reflexivity]. Qed.

Lemma join_split_terminated (s : bytes) :
  forall cur, join_lines (split_lines_from cur (s ++ [newline])) = cur ++ s.
Proof.
  induction s as [|c s IH]; intros cur; simpl.
  - rewrite app_nil_r. reflexivity.
  - destruct (Z.eqb_spec c newline) as [E|E].
    + rewrite join_lines_cons.
      * rewrite IH. subst c. reflexivity.
      * intros H. apply split_lines_from_nil in H. destruct s; discriminate (proj2 H).
    + rewrite IH, <- app_assoc. reflexivity.
Qed.

Lemma join_split_open (s : bytes) :
  forall cur, (s <> [] -> last s 0 <> newline) ->
  join_lines (split_lines_from cur s) = cur ++ s.
Proof.
  induction s as [|c s IH]; intros cur Hs; simpl.
  - rewrite app_nil_r. destruct cur; reflexivity.
  - assert (Hs' : s <> [] -> last s 0 <> newline).
    { intros Hne. destruct s as [|a s]; [contradiction|]. apply Hs. discriminate. }
    destruct (Z.eqb_spec c newline) as [E|E].
    + destruct s as [|a s].
      * exfalso. apply Hs; [discriminate|]. simpl. exact E.
      * rewrite join_lines_cons.
        -- rewrite IH by exact Hs'. subst c. reflexivity.
        -- intros H. apply split_lines_from_nil in H. discriminate (proj2 H).
    + rewrite IH, <- app_assoc by exact Hs'. reflexivity.
Qed.

(** X4: joining the lines of [split_lines s] with newlines gives back
    [s] without its final newline: [s] itself when it is empty or does not
    end with a newline. *)
Theorem join_split_lines :
  (forall s : bytes, join_lines (split_lines (s ++ [newline])) = s) /\
  (forall s : bytes, (s <> [] -> last s 0 <> newline) -> join_lines (split_lines s) = s).
Proof.
  split; intros s; unfold split_lines.
  - apply join_split_terminated.
  - intros H. apply join_split_open. exact H.
Qed.

Lemma join_split_lines_witness :
  join_lines (split_lines (codes "ab" ++ [newline; newline] ++ codes "c")) = codes "ab" ++ [newline; newline] ++ codes "c".
Proof. apply (proj2 join_split_lines). intros _. vm_compute. discriminate. Defined.

Lemma split_lines_app (l rest : bytes) :
  ~ In newline l -> forall cur, split_lines_from cur (l ++ rest) = split_lines_from (cur ++ l) rest.
Proof.
  induction l as [|c l IH]; intros Hl cur; simpl.
  - rewrite app_nil_r. reflexivity.
  - destruct (Z.eqb_spec c newline) as [E|E]; [subst; exfalso; apply Hl; left; reflexivity|].
    rewrite IH by (intros H; apply Hl; right; exact H).
    rewrite <- app_assoc. reflexivity.
Qed.

(** X5: [split_lines] undoes joining with newlines: for lines without a
    newline whose last one is non-empty, [split_lines] of their join gives
    the same lines, empty ones in the middle included. *)
Theorem split_join_lines (ls : list bytes) :
  Forall (fun l => ~ In newline l) ls -> ls = [] \/ last ls [] <> [] ->
  split_lines (join_lines ls) = ls.
Proof.
  unfold split_lines. induction ls as [|l ls IH]; intros Hnl Hlast; [reflexivity|].
  destruct Hlast as [Hlast|Hlast]; [discriminate|].
  inversion Hnl as [|x y Hl Hls]; subst.
  destruct ls as [|l2 ls].
  - simpl in Hlast. simpl. rewrite split_lines_single by assumption. simpl.
    destruct l; [contradiction|reflexivity].
  - rewrite join_lines_cons by discriminate.
    rewrite split_lines_app by assumption. simpl.
    f_equal. apply IH; [assumption|right; exact Hlast].
Qed.

Lemma split_join_lines_witness :
  split_lines (join_lines [codes "ab"; []; codes "c"]) = [codes "ab"; []; codes "c"].
Proof.
  apply split_join_lines.
  - repeat constructor; simpl; intuition discriminate.
  - right. discriminate.
Defined.

(** ** Reading standard input. *)

Lemma getline_from_nl (l rest : bytes) :
  ~ In newline l -> forall line, getline_from line (l ++ newline :: rest) = (line ++ l, rest).
Proof.
  induction l as [|c l IH]; intros Hl line; simpl.
  - rewrite app_nil_r. reflexivity.
  - destruct (Z.eqb_spec c newline) as [E|E]; [subst; exfalso; apply Hl; left; reflexivity|].
    rewrite IH by (intros H; apply Hl; right; exact H). rewrite <- app_assoc. reflexivity.
Qed.

Lemma getline_from_last (l : bytes) :
  ~ In newline l -> forall line, getline_from line l = (line ++ l, []).
Proof.
  induction l as [|c l IH]; intros Hl line; simpl.
  - rewrite app_nil_r. reflexivity.
  - destruct (Z.eqb_spec c newline) as [E|E]; [subst; exfalso; apply Hl; left; reflexivity|].
    rewrite IH by (intros H; apply Hl; right; exact H). rewrite <- app_assoc. reflexivity.
Qed.

Lemma last_In' (s : bytes) : s <> [] -> In (last s 0) s.
Proof.
  intros H. destruct (exists_last H) as [m [z ->]]. rewrite last_last.
  apply in_or_app. right. left. reflexivity.
Qed.

Lemma last_app_r (l1 l2 : bytes) : l2 <> [] -> last (l1 ++ l2) 0 = last l2 0.
Proof.
  intros H. destruct (exists_last H) as [m [z ->]].
  rewrite app_assoc, !last_last. reflexivity.
Qed.

Lemma read_stdin_loop_spec (n : nat) :
  forall fuel s input, (length s <= n)%nat -> (length s < fuel)%nat ->
  read_stdin_loop fuel s input
  = Ret (input ++ match s with [] => [] | _ => if last s 0 =? newline then s else s ++ [newline] end).
Proof.
  induction n as [|n IH]; intros fuel s input Hn Hf; destruct fuel as [|fuel]; try lia.
  - destruct s; [|simpl in Hn; lia]. simpl. rewrite app_nil_r. reflexivity.
  - destruct s as [|a s0] eqn:Es; [simpl; rewrite app_nil_r; reflexivity|]. rewrite <- Es in Hn, Hf |- *.
    assert (Hne : s <> []) by (subst; discriminate).
    assert (Hgl : getline s = Some (getline_from [] s)) by (subst; reflexivity).
    cbn [read_stdin_loop]. rewrite Hgl.
    replace (match s with [] => [] | _ :: _ => if last s 0 =? newline then s else s ++ [newline] end)
      with (if last s 0 =? newline then s else s ++ [newline]) by (subst; reflexivity).
    destruct (existsb (Z.eqb newline) s) eqn:Ex.
    + destruct (first_such _ _ Ex) as [l [c [rest [Hs [Hc Hl]]]]].
      apply Z.eqb_eq in Hc. subst c.
      assert (Hl' : ~ In newline l).
      { intros Hin. rewrite Forall_forall in Hl. specialize (Hl _ Hin). rewrite Z.eqb_refl in Hl. discriminate. }
      rewrite Hs, getline_from_nl by exact Hl'. simpl app at 1.
      assert (Hlen : length s = (length l + S (length rest))%nat) by (rewrite Hs, length_app; reflexivity).
      rewrite (IH fuel rest) by lia.
      destruct rest as [|b rest'] eqn:Er.
      * rewrite last_last, Z.eqb_refl. repeat rewrite <- app_assoc. reflexivity.
      * rewrite <- Er. rewrite <- Er in Hlen.
        assert (Hr : rest <> []) by (subst; discriminate).
        replace (l ++ newline :: rest) with ((l ++ [newline]) ++ rest) by (rewrite <- app_assoc; reflexivity).
        rewrite last_app_r by exact Hr.
        replace (match rest with [] => [] | _ :: _ => if last rest 0 =? newline then rest else rest ++ [newline] end)
          with (if last rest 0 =? newline then rest else rest ++ [newline]) by (subst; reflexivity).
        destruct (last rest 0 =? newline); repeat rewrite <- app_assoc; reflexivity.
    + assert (Hl : ~ In newline s).
      { intros Hin. assert (existsb (Z.eqb newline) s = true) by (apply existsb_exists; exists newline; split; [exact Hin|apply Z.eqb_refl]). congruence. }
      rewrite getline_from_last by exact Hl. simpl app at 1.
      destruct fuel as [|fuel]; [subst; simpl in Hf; lia|]. cbn [read_stdin_loop getline].
      replace (last s 0 =? newline) with false.
      * reflexivity.
      * symmetry. apply Z.eqb_neq. intros E. apply Hl. rewrite <- E. apply last_In'. exact Hne.
Qed.

(** X6: under [--stdin] the input handed to [generate] is the bytes read
    with a newline added at the end when they do not already end with one
    (and nothing for an empty input). *)
Theorem read_stdin_terminated (s : bytes) :
  read_stdin s = Ret (match s with [] => [] | _ => if last s 0 =? newline then s else s ++ [newline] end).
Proof. unfold read_stdin. apply (read_stdin_loop_spec (length s)); lia. Qed.


(** ** Normalisation of the input. *)

Lemma split_lines_from_in (c : Z) :
  forall s cur l, In l (split_lines_from cur s) -> In c l -> In c cur \/ In c s.
Proof.
  induction s as [|x s IH]; intros cur l Hl Hc; simpl in Hl.
  - destruct cur as [|y cur']; [destruct Hl|]. destruct Hl as [<-|[]]. left. exact Hc.
  - destruct (x =? newline).
    + destruct Hl as [<-|Hl]; [left; exact Hc|].
      destruct (IH [] l Hl Hc) as [[]|H]. right. right. exact H.
    + destruct (IH (cur ++ [x]) l Hl Hc) as [H|H].
      * apply in_app_or in H. destruct H as [H|[<-|[]]]; [left; exact H | right; left; reflexivity].
      * right. right. exact H.
Qed.

Lemma join_lines_in (c : Z) :
  forall ls, In c (join_lines ls) -> c = newline \/ exists l, In l ls /\ In c l.
Proof.
  induction ls as [|l ls IH]; intros H; [destruct H|].
  destruct ls as [|l' ls'].
  - right. exists l. split; [left; reflexivity | exact H].
  - change (join_lines (l :: l' :: ls')) with (l ++ newline :: join_lines (l' :: ls')) in H.
    apply in_app_or in H. destruct H as [H|[<-|H]].
    + right. exists l. split; [left; reflexivity | exact H].
    + left. reflexivity.
    + destruct (IH H) as [E|[l0 [Hl0 Hc]]]; [left; exact E|].
      right. exists l0. split; [right; exact Hl0 | exact Hc].
Qed.

Lemma remove_short_lines_in (m : nat) (s : bytes) (c : Z) :
  In c (remove_short_lines m s) -> c = newline \/ In c s.
Proof.
  unfold remove_short_lines. destruct (m =? 0)%nat; intros H; [right; exact H|].
  destruct (join_lines_in _ _ H) as [E|[l [Hl Hc]]]; [left; exact E|].
  apply filter_In in Hl. destruct Hl as [Hl _]. unfold split_lines in Hl.
  destruct (split_lines_from_in c s [] l Hl Hc) as [[]|H']. right. exact H'.
Qed.

Lemma replace_newlines_no_newline (s : bytes) :
  ~ In 0 s -> ~ In newline (replace_newlines s).
Proof.
  induction s as [|x s IH]; intros Hs; simpl; [tauto|].
  destruct (Z.eqb_spec x 0) as [E|E]; [subst; exfalso; apply Hs; left; reflexivity|].
  intros [H|H].
  - destruct (Z.eqb_spec x newline) as [E'|E'].
    + unfold space, newline in H. discriminate H.
    + contradiction.
  - apply IH; [intros H'; apply Hs; right; exact H' | exact H].
Qed.

(** X7: for an input without NUL byte, the normalised input (with
    [std::tolower] of the C locale, any [--min-line], with or without
    [--ascii]) contains no newline: the lines joined back by the short-line
    filter are separated by newlines which the [strchr] loop then turns
    into spaces, as it does every newline of the input. *)
Theorem prepare_input_no_newline (min_line : nat) (ascii : bool) (s : bytes) :
  ~ In 0 s -> ~ In newline (prepare_input c_tolower min_line ascii s).
Proof.
  intros Hs H. unfold prepare_input in H. apply in_map_iff in H. destruct H as [x [Ex Hx]].
  assert (Hxn : x = newline).
  { unfold c_tolower in Ex. destruct ((65 <=? x) && (x <=? 90)) eqn:R; [|exact Ex].
    apply andb_true_iff in R. destruct R as [R1 _]. apply Z.leb_le in R1.
    unfold newline in Ex. lia. }
  subst x.
  assert (Hr : In newline (replace_newlines (remove_short_lines min_line s))).
  { unfold remove_non_ascii in Hx. destruct ascii; [apply filter_In in Hx; apply Hx | exact Hx]. }
  revert Hr. apply replace_newlines_no_newline.
  intros H0. destruct (remove_short_lines_in _ _ _ H0) as [E|E].
  - unfold newline in E. discriminate E.
  - exact (Hs E).
Qed.

Lemma prepare_input_no_newline_witness :
  ~ In 0 (codes "ab" ++ [newline] ++ codes "cde") /\
  ~ In newline (prepare_input c_tolower 3 false (codes "ab" ++ [newline] ++ codes "cde")).
Proof.
  split.
  - vm_compute. intuition discriminate.
  - apply prepare_input_no_newline. vm_compute. intuition discriminate.
Defined.

Lemma c_tolower_ascii_chars (c : Z) :
  In c ascii_chars -> In (c_tolower c) lower_ascii_chars.
Proof.
  assert (H : forallb (fun x => existsb (Z.eqb (c_tolower x)) lower_ascii_chars) ascii_chars = true)
    by (vm_compute; reflexivity).
  intros Hc. rewrite forallb_forall in H. specialize (H c Hc).
  apply existsb_exists in H. destruct H as [y [Hy E]]. apply Z.eqb_eq in E. rewrite E. exact Hy.
Qed.

(** X8: with [--ascii] and [std::tolower] of the C locale, every byte
    of the normalised input is a lower case Latin letter, one of the
    punctuation bytes of [ascii_chars], or a space: no upper case letter,
    newline, tab or non-ASCII byte is left. *)
Theorem prepare_input_ascii_lowercase (min_line : nat) (s : bytes) :
  Forall (fun c => In c lower_ascii_chars) (prepare_input c_tolower min_line true s).
Proof.
  apply Forall_forall. intros c Hc. unfold prepare_input, remove_non_ascii in Hc.
  apply in_map_iff in Hc. destruct Hc as [x [<- Hx]].
  apply filter_In in Hx. destruct Hx as [_ Hx].
  apply existsb_exists in Hx. destruct Hx as [y [Hy E]]. apply Z.eqb_eq in E. subst y.
  apply c_tolower_ascii_chars. exact Hy.
Qed.

(** Constructor: successor count. *)
(** ** The table and the runs of [generate]. *)

Lemma total_push_back (t : table) (k : tstring) (c : Z) :
  total_successors (push_back t k c) = S (total_successors t).
Proof.
  unfold total_successors. induction t as [|[k' v] t IH]; simpl; [reflexivity|].
  destruct (tstring_eqb k k'); simpl.
  - rewrite length_app. simpl. lia.
  - rewrite IH. lia.
Qed.

Lemma total_ctor_fold (C : tstring) (k : nat) :
  forall l t, total_successors (fold_left (ctor_step C k) l t) = (length l + total_successors t)%nat.
Proof.
  induction l as [|j l IH]; intros t; simpl; [reflexivity|].
  rewrite IH. unfold ctor_step. rewrite total_push_back. lia.
Qed.

(** X9: for a corpus at least as long as the order, the constructor
    succeeds and stores one successor per window: over all entries of its
    table, the successor lists hold [len(C) - k] characters in all ([0]
    when the corpus is exactly as long as the order). *)
Theorem ctor_successor_count (St : Type) (rng_seed : Z -> St) (C : tstring) (k : nat) (sd : Z) :
  (k <= length C)%nat ->
  exists mc, markov_chain_ctor rng_seed C k sd = Some mc /\
    total_successors (chain St mc) = (length C - k)%nat.
Proof.
  intros Hk. unfold markov_chain_ctor. rewrite build_chain_fold by exact Hk.
  eexists. split; [reflexivity|]. simpl.
  rewrite total_ctor_fold, length_seq. change (total_successors []) with 0%nat. lia.
Qed.

Lemma ctor_successor_count_witness :
  (3 <= length demo_text)%nat /\
  exists mc, mt_ctor demo_text 3 42 = Some mc /\
    total_successors (chain MT19937.mt19937 mc) = (length demo_text - 3)%nat.
Proof.
  split; [vm_compute; lia|].
  apply (ctor_successor_count MT19937.mt19937 MT19937.seed demo_text 3 42).
  vm_compute. lia.
Defined.


Lemma substr_app_l (l m : tstring) (pos count : nat) :
  (pos + count <= length l)%nat -> substr (l ++ m) pos count = substr l pos count.
Proof.
  intros H. unfold substr. rewrite skipn_app, firstn_app, length_skipn.
  replace (count - (length l - pos))%nat with 0%nat by lia.
  rewrite firstn_O, app_nil_r. reflexivity.
Qed.

Lemma firstn_S_nth (l : tstring) (n : nat) :
  (n < length l)%nat -> firstn (S n) l = firstn n l ++ [nth n l 0].
Proof.
  revert l. induction n as [|n IH]; intros l H; destruct l as [|a l]; simpl in *; try lia.
  - reflexivity.
  - rewrite IH by lia. reflexivity.
Qed.

Lemma nth_skipn' (l : tstring) (pos n : nat) : nth n (skipn pos l) 0 = nth (pos + n) l 0.
Proof.
  revert l. induction pos as [|pos IH]; intros l; [reflexivity|].
  destruct l as [|a l]; simpl; [destruct n; reflexivity|]. apply IH.
Qed.

Lemma substr_snoc (l : tstring) (pos count : nat) :
  (pos + count < length l)%nat ->
  substr l pos (S count) = substr l pos count ++ [nth (pos + count) l 0].
Proof.
  intros H. unfold substr. rewrite firstn_S_nth by (rewrite length_skipn; lia).
  rewrite nth_skipn'. reflexivity.
Qed.

Lemma corpus_window (C : tstring) (k : nat) (t : table) (w : tstring) (succ : list Z) (x : Z) :
  build_chain C k = Some t -> find t w = Some succ -> In x succ ->
  exists i, (i + k < length C)%nat /\ substr C i k = w /\ nth (i + k) C 0 = x.
Proof.
  intros Hb Hf Hx. destruct (build_chain_cases C k t Hb) as [[Hk ->] | ->]; [|discriminate].
  rewrite find_ctor_fold in Hf. simpl in Hf.
  destruct (map (fun i => nth (i + k) C 0) (filter (fun i => tstring_eqb (substr C i k) w) (seq 0 (length C - k))))
    as [|y ys] eqn:Em; [discriminate|].
  inversion Hf; subst succ. rewrite <- Em in Hx.
  apply in_map_iff in Hx. destruct Hx as [i [Hi Hin]].
  apply filter_In in Hin. destruct Hin as [Hs Heq]. apply in_seq in Hs.
  destruct (tstring_eqb_spec (substr C i k) w) as [E|E]; [|discriminate].
  exists i. split; [lia|]. split; assumption.
Qed.

Section EngineWindows.

Variable St : Type.
Variable rng_next : St -> Z * St.

Lemma extend_loop_windows (c : table) (ord : nat) :
  forall k i ngram result st res st',
  length result = (ord + i)%nat -> ngram = substr result i ord -> windows_ok c ord result ->
  extend_loop rng_next c ord k i ngram result st = Ret (res, st') ->
  windows_ok c ord res /\
  (length res = ord + i + k \/
   (length res < ord + i + k /\ find c (substr res (length res - ord) ord) = None))%nat.
Proof.
  induction k as [|k IH]; intros i ngram result st res st' Hl Hng Hw H; simpl in H.
  - inversion H; subst. split; [assumption|left; lia].
  - destruct (find c ngram) as [succ|] eqn:Ef.
    + destruct (rng_next st) as [r st1].
      destruct (Nat.eqb_spec (length succ) 0) as [E0|E0]; [discriminate|].
      set (x := nth (Z.to_nat (r mod Z.of_nat (length succ))) succ 0) in H.
      apply IH in H.
      * destruct H as [Hw' [E|[E F]]]; split; [exact Hw'|left; lia|exact Hw'|right; split; [lia|exact F]].
      * rewrite length_app. simpl. lia.
      * reflexivity.
      * intros p Hp. rewrite length_app in Hp. simpl in Hp.
        rewrite substr_app_l by lia.
        destruct (Nat.eq_dec p (length result)) as [->|Hne].
        -- replace (length result - ord)%nat with i by lia. rewrite <- Hng.
           exists succ. split; [exact Ef|].
           rewrite app_nth2, Nat.sub_diag by lia. simpl.
           apply nth_In. apply mod_index_lt. exact E0.
        -- rewrite app_nth1 by lia. apply Hw. lia.
    + inversion H; subst. split; [assumption|]. right. split; [lia|].
      replace (length res - ord)%nat with i by lia. exact Ef.
Qed.

End EngineWindows.

Lemma generate_run (St : Type) (rng_next : St -> Z * St) (rng_seed : Z -> St)
    (iter_order : table -> table) (reserve_ok : nat -> bool) (C : tstring) (k : nat) (sd : Z) (fuel len : nat)
    (mc mc' : markov_chain St) (out : tstring) :
  (forall t, Permutation (iter_order t) t) ->
  markov_chain_ctor rng_seed C k sd = Some mc ->
  generate rng_next iter_order reserve_ok fuel mc len = Ret (out, mc') ->
  (k <= length out)%nat /\ windows_ok (chain St mc) k out /\
  (length out = k + len \/
   (length out < k + len /\ find (chain St mc) (substr out (length out - k) k) = None))%nat.
Proof.
  intros Hperm Hc Hg. destruct (ctor_chain_wf _ _ _ _ _ _ Hc) as [Hord Hwf].
  unfold generate in Hg. destruct (reserve_ok len); cbn [negb] in Hg; [|discriminate Hg].
  destruct (select_seed rng_next iter_order fuel (chain St mc) (rng St mc))
    as [[ngram st1]| | |] eqn:Es; simpl in Hg; try discriminate.
  destruct (extend_loop rng_next (chain St mc) (order St mc) len 0 ngram ngram st1)
    as [[result st2]| | |] eqn:Ex; simpl in Hg; try discriminate.
  inversion Hg; subst out; clear Hg.
  destruct (select_seed_ret _ _ _ _ _ _ _ _ Es) as [[succ Hin] _].
  apply (Permutation_in _ (Hperm (chain St mc))) in Hin.
  destruct (Hwf _ _ Hin) as [Hk _].
  rewrite Hord in Ex.
  pose proof Ex as Ex'. apply extend_loop_ret in Ex'.
  destruct Ex' as [rest [m [-> _]]].
  apply extend_loop_windows in Ex.
  - destruct Ex as [Hw [E|[E F]]]; (split; [rewrite length_app; lia|]); (split; [exact Hw|]); [left; lia|right; split; [lia|exact F]].
  - lia.
  - unfold substr. rewrite skipn_O. symmetry. apply firstn_all2. lia.
  - intros p Hp. lia.
Qed.

(** X10: on an engine built by the constructor (the hash table iterating
    over each entry once), every [order + 1] consecutive characters of an
    output of [generate] occur in the corpus: each transition of the
    output was seen in the training text. *)
Theorem generate_windows_in_corpus (St : Type) (rng_next : St -> Z * St) (rng_seed : Z -> St)
    (iter_order : table -> table) (reserve_ok : nat -> bool) (C : tstring) (k : nat) (sd : Z) (fuel len : nat)
    (mc mc' : markov_chain St) (out : tstring) :
  (forall t, Permutation (iter_order t) t) ->
  markov_chain_ctor rng_seed C k sd = Some mc ->
  generate rng_next iter_order reserve_ok fuel mc len = Ret (out, mc') ->
  forall p, (k <= p < length out)%nat ->
  exists i, (i + k < length C)%nat /\ substr out (p - k) (S k) = substr C i (S k).
Proof.
  intros Hperm Hc Hg p Hp.
  destruct (generate_run _ _ _ _ _ _ _ _ _ _ _ _ _ Hperm Hc Hg) as [_ [Hw _]].
  destruct (Hw p Hp) as [succ [Hf Hx]].
  unfold markov_chain_ctor in Hc. destruct (build_chain C k) as [t|] eqn:Eb; [|discriminate].
  inversion Hc; subst mc; simpl in Hf.
  destruct (corpus_window C k t _ succ _ Eb Hf Hx) as [i [Hi [Hs Hn]]].
  exists i. split; [exact Hi|].
  rewrite !substr_snoc by lia. rewrite Hs, Hn.
  replace (p - k + k)%nat with p by lia. reflexivity.
Qed.

Lemma generate_windows_in_corpus_witness :
  let r := result_of ([], demo_engine) (mt_generate 100 demo_engine 12) in
  mt_ctor demo_text 3 42 = Some demo_engine /\
  mt_generate 100 demo_engine 12 = Ret (fst r, snd r) /\
  forall p, (3 <= p < length (fst r))%nat ->
  exists i, (i + 3 < length demo_text)%nat /\ substr (fst r) (p - 3) 4 = substr demo_text i 4.
Proof.
  intros r.
  assert (H1 : mt_ctor demo_text 3 42 = Some demo_engine) by (vm_compute; reflexivity).
  assert (G : mt_generate 100 demo_engine 12 = Ret (fst r, snd r)) by (vm_compute; reflexivity).
  split; [exact H1|]. split; [exact G|].
  exact (generate_windows_in_corpus MT19937.mt19937 MT19937.next MT19937.seed insertion_order libstdcxx_reserve
           demo_text 3 42 100 12 demo_engine (snd r) (fst r) (fun t => Permutation_refl t) H1 G).
Defined.

(** X11: on an engine built by the constructor, an output of
    [generate(length)] has between [order] and [order + length]
    characters, and it is shorter than [order + length] only when its last
    [order] characters are not a key of the table. *)
Theorem generate_length_bounds (St : Type) (rng_next : St -> Z * St) (rng_seed : Z -> St)
    (iter_order : table -> table) (reserve_ok : nat -> bool) (C : tstring) (k : nat) (sd : Z) (fuel len : nat)
    (mc mc' : markov_chain St) (out : tstring) :
  (forall t, Permutation (iter_order t) t) ->
  markov_chain_ctor rng_seed C k sd = Some mc ->
  generate rng_next iter_order reserve_ok fuel mc len = Ret (out, mc') ->
  (k <= length out <= k + len)%nat /\
  ((length out < k + len)%nat -> find (chain St mc) (substr out (length out - k) k) = None).
Proof.
  intros Hperm Hc Hg.
  destruct (generate_run _ _ _ _ _ _ _ _ _ _ _ _ _ Hperm Hc Hg) as [Hk [_ Hl]].
  split; [lia|]. intros Hlt. destruct Hl as [Hl|[_ Hl]]; [lia|exact Hl].
Qed.

Lemma generate_length_bounds_witness :
  let r := result_of ([], demo_engine) (mt_generate 100 demo_engine 12) in
  mt_ctor demo_text 3 42 = Some demo_engine /\
  mt_generate 100 demo_engine 12 = Ret (fst r, snd r) /\
  (3 <= length (fst r) <= 3 + 12)%nat /\
  ((length (fst r) < 3 + 12)%nat ->
   find (chain MT19937.mt19937 demo_engine) (substr (fst r) (length (fst r) - 3) 3) = None).
Proof.
  intros r.
  assert (H1 : mt_ctor demo_text 3 42 = Some demo_engine) by (vm_compute; reflexivity).
  assert (G : mt_generate 100 demo_engine 12 = Ret (fst r, snd r)) by (vm_compute; reflexivity).
  split; [exact H1|]. split; [exact G|].
  exact (generate_length_bounds MT19937.mt19937 MT19937.next MT19937.seed insertion_order libstdcxx_reserve
           demo_text 3 42 100 12 demo_engine (snd r) (fst r) (fun t => Permutation_refl t) H1 G).
Defined.

(** Seeds. *)

Lemma generate_calls_seed (St : Type) (rng_next : St -> Z * St) (iter_order : table -> table) (reserve_ok : nat -> bool)
    (fuel : nat) (o : nat) (c : table) (s s' : Z) :
  forall lens r,
  generate_calls rng_next iter_order reserve_ok fuel (mk_markov_chain o c r s) lens
  = bind (generate_calls rng_next iter_order reserve_ok fuel (mk_markov_chain o c r s') lens)
      (fun p => Ret (fst p, mk_markov_chain o c (rng St (snd p)) s)).
Proof.
  induction lens as [|len lens IH]; intros r; [reflexivity|].
  cbn [generate_calls]. unfold generate. cbn [chain rng order seed].
  destruct (reserve_ok len); cbn [negb bind]; [|reflexivity].
  destruct (select_seed rng_next iter_order fuel c r) as [[ngram st1]| | |]; cbn [bind]; try reflexivity.
  destruct (extend_loop rng_next c o len 0 ngram ngram st1) as [[result st2]| | |]; cbn [bind]; try reflexivity.
  rewrite IH.
  destruct (generate_calls rng_next iter_order reserve_ok fuel (mk_markov_chain o c st2 s') lens)
    as [[outs mc2]| | |]; reflexivity.
Qed.

(** X12: [std::mt19937] keeps only the low 32 bits of the seed: two
    engines built from the same corpus and order with seeds congruent
    modulo [2^32] give the same outputs for any sequence of [generate]
    calls, whatever order the table iterates in (the same for both, as the
    two tables are built alike) and whatever [result.reserve] does; yet
    each engine stores its own seed, the one [--print-seed] shows. *)
Theorem seed_congruent_same_output (iter_order : table -> table) (reserve_ok : nat -> bool)
    (C : tstring) (k : nat) (sd j : Z) (fuel : nat)
    (lens : list nat) (mc1 mc2 : markov_chain MT19937.mt19937) :
  mt_ctor C k sd = Some mc1 ->
  mt_ctor C k (sd + j * 2 ^ 32) = Some mc2 ->
  seed MT19937.mt19937 mc1 = sd /\ seed MT19937.mt19937 mc2 = sd + j * 2 ^ 32 /\
  output (generate_calls MT19937.next iter_order reserve_ok fuel mc1 lens)
  = output (generate_calls MT19937.next iter_order reserve_ok fuel mc2 lens).
Proof.
  assert (Hs : MT19937.seed (sd + j * 2 ^ 32) = MT19937.seed sd)
    by (unfold MT19937.seed, MT19937.w32; rewrite Z_mod_plus_full; reflexivity).
  unfold markov_chain_ctor. destruct (build_chain C k) as [t|]; [|discriminate].
  intros H1 H2. rewrite Hs in H2. injection H1 as <-. injection H2 as <-.
  split; [reflexivity|]. split; [reflexivity|].
  rewrite (generate_calls_seed _ _ _ _ fuel k t (sd + j * Z.pow_pos 2 32) sd).
  destruct (generate_calls MT19937.next iter_order reserve_ok fuel
              (mk_markov_chain k t (MT19937.seed sd) sd) lens)
    as [[outs mc]| | |]; reflexivity.
Qed.

Lemma seed_congruent_same_output_witness :
  mt_ctor demo_text 3 42 = Some demo_engine /\
  mt_ctor demo_text 3 (42 + 1 * 2 ^ 32) = Some (engine_of (mt_ctor demo_text 3 (42 + 1 * 2 ^ 32))) /\
  seed MT19937.mt19937 demo_engine = 42 /\
  seed MT19937.mt19937 (engine_of (mt_ctor demo_text 3 (42 + 1 * 2 ^ 32))) = 42 + 1 * 2 ^ 32 /\
  output (mt_generate_calls 100 demo_engine [12%nat; 5%nat])
  = output (mt_generate_calls 100 (engine_of (mt_ctor demo_text 3 (42 + 1 * 2 ^ 32))) [12%nat; 5%nat]).
Proof.
  assert (H1 : mt_ctor demo_text 3 42 = Some demo_engine) by (vm_compute; reflexivity).
  assert (H2 : mt_ctor demo_text 3 (42 + 1 * 2 ^ 32) = Some (engine_of (mt_ctor demo_text 3 (42 + 1 * 2 ^ 32))))
    by (vm_compute; reflexivity).
  split; [exact H1|]. split; [exact H2|].
  exact (seed_congruent_same_output insertion_order libstdcxx_reserve
           demo_text 3 42 1 100 [12%nat; 5%nat] _ _ H1 H2).
Defined.


(** ** [std::mt19937]. *)

Lemma in32_iff (z : Z) : in32 z <-> Z.land z (Z.ones 32) = z.
Proof.
  unfold in32. rewrite Z.land_ones by lia. split.
  - intros H. apply Z.mod_small. exact H.
  - intros H. rewrite <- H. apply Z.mod_pos_bound. lia.
Qed.

Lemma land_lxor_distr (a b c : Z) : Z.land (Z.lxor a b) c = Z.lxor (Z.land a c) (Z.land b c).
Proof.
  apply Z.bits_inj'. intros n Hn.
  rewrite Z.land_spec, !Z.lxor_spec, !Z.land_spec.
  destruct (Z.testbit a n), (Z.testbit b n), (Z.testbit c n); reflexivity.
Qed.

Lemma in32_lxor (a b : Z) : in32 a -> in32 b -> in32 (Z.lxor a b).
Proof.
  rewrite !in32_iff. intros Ha Hb. rewrite land_lxor_distr, Ha, Hb. reflexivity.
Qed.

Lemma in32_lor (a b : Z) : in32 a -> in32 b -> in32 (Z.lor a b).
Proof.
  rewrite !in32_iff. intros Ha Hb. rewrite Z.land_lor_distr_l, Ha, Hb. reflexivity.
Qed.

Lemma in32_land (a b : Z) : in32 b -> in32 (Z.land a b).
Proof.
  rewrite !in32_iff. intros Hb. rewrite <- Z.land_assoc, Hb. reflexivity.
Qed.

Lemma in32_shiftr (a n : Z) : in32 a -> 0 <= n -> in32 (Z.shiftr a n).
Proof.
  unfold in32. intros Ha Hn. rewrite Z.shiftr_div_pow2 by exact Hn.
  assert (0 < 2 ^ n) by (apply Z.pow_pos_nonneg; lia).
  split; [apply Z.div_pos; lia|].
  apply Z.le_lt_trans with a; [|lia].
  apply Z.div_le_upper_bound; [lia|]. nia.
Qed.

Lemma in32_mod (z : Z) : in32 (z mod MT19937.w32).
Proof. unfold in32, MT19937.w32. apply Z.mod_pos_bound. lia. Qed.

Lemma in32_nth (x : list Z) (k : nat) : Forall in32 x -> in32 (nth k x 0).
Proof.
  intros H. destruct (Nat.lt_ge_cases k (length x)) as [Hk|Hk].
  - apply (proj1 (Forall_nth in32 x) H). exact Hk.
  - rewrite nth_overflow by exact Hk. unfold in32. lia.
Qed.

Lemma in32_set_nth (x : list Z) (k : nat) (v : Z) :
  Forall in32 x -> in32 v -> Forall in32 (MT19937.set_nth x k v).
Proof.
  revert k. induction x as [|a x IH]; intros k Hx Hv; [constructor|].
  inversion Hx; subst. destruct k as [|k]; simpl; constructor; auto.
Qed.

Lemma in32_twist (a b : Z) : in32 (MT19937.twist a b).
Proof.
  unfold MT19937.twist. apply in32_lxor.
  - apply in32_shiftr; [|lia]. apply in32_lor; apply in32_land;
      unfold in32, MT19937.upper_mask, MT19937.lower_mask; lia.
  - destruct (Z.odd _); unfold in32, MT19937.xor_mask; lia.
Qed.

Lemma in32_gen_rand_loop (todo : nat) :
  forall k x, Forall in32 x -> Forall in32 (MT19937.gen_rand_loop todo k x).
Proof.
  induction todo as [|todo IH]; intros k x Hx; [exact Hx|]. cbn [MT19937.gen_rand_loop].
  apply IH. apply in32_set_nth; [exact Hx|].
  apply in32_lxor; [apply in32_nth; exact Hx|apply in32_twist].
Qed.

Lemma in32_seed_fill (n : nat) : forall i prev, Forall in32 (MT19937.seed_fill n i prev).
Proof.
  induction n as [|n IH]; intros i prev; simpl; constructor; [apply in32_mod|apply IH].
Qed.

Lemma in32_temper (z : Z) : in32 z -> in32 (MT19937.temper z).
Proof.
  intros Hz. unfold MT19937.temper.
  assert (Hb : in32 MT19937.tempering_b) by (unfold in32, MT19937.tempering_b; lia).
  assert (Hc : in32 MT19937.tempering_c) by (unfold in32, MT19937.tempering_c; lia).
  assert (Hm : in32 (MT19937.w32 - 1)) by (unfold in32, MT19937.w32; lia).
  assert (H1 : in32 (Z.lxor z (Z.land (Z.shiftr z 11) (MT19937.w32 - 1)))) by (apply in32_lxor; [exact Hz|apply in32_land; exact Hm]).
  assert (H2 : in32 (Z.lxor (Z.lxor z (Z.land (Z.shiftr z 11) (MT19937.w32 - 1)))
                 (Z.land (Z.shiftl (Z.lxor z (Z.land (Z.shiftr z 11) (MT19937.w32 - 1))) 7) MT19937.tempering_b)))
    by (apply in32_lxor; [exact H1|apply in32_land; exact Hb]).
  set (z2 := Z.lxor _ (Z.land (Z.shiftl _ 7) _)) in *.
  assert (H3 : in32 (Z.lxor z2 (Z.land (Z.shiftl z2 15) MT19937.tempering_c)))
    by (apply in32_lxor; [exact H2|apply in32_land; exact Hc]).
  apply in32_lxor; [exact H3|apply in32_shiftr; [exact H3|lia]].
Qed.

Lemma mt_next_in32 (g : MT19937.mt19937) :
  Forall in32 (MT19937.mt_x g) ->
  in32 (fst (MT19937.next g)) /\ Forall in32 (MT19937.mt_x (snd (MT19937.next g))).
Proof.
  intros H. unfold MT19937.next. cbn [fst snd MT19937.mt_x].
  assert (Hx : Forall in32 (if (MT19937.state_size <=? MT19937.mt_p g)%nat
                            then MT19937.gen_rand (MT19937.mt_x g) else MT19937.mt_x g))
    by (destruct (_ <=? _)%nat; [apply in32_gen_rand_loop|]; exact H).
  split; [apply in32_temper, in32_nth; exact Hx|exact Hx].
Qed.

(** X13: every draw of the generator, after any number of earlier draws
    from any seed, is a 32-bit value in [[0, 2^32)]: the engine keeps its
    624 state words within 32 bits. *)
Theorem mt19937_output_32bit (sd : Z) (m : nat) :
  0 <= fst (MT19937.next (advance MT19937.next m (MT19937.seed sd))) < 2 ^ 32.
Proof.
  assert (H : forall m g, Forall in32 (MT19937.mt_x g) -> Forall in32 (MT19937.mt_x (advance MT19937.next m g))).
  { induction m0 as [|m0 IH]; intros g Hg; [exact Hg|]. simpl. apply IH. apply mt_next_in32. exact Hg. }
  apply mt_next_in32, H. cbn [MT19937.seed MT19937.mt_x]. constructor; [apply in32_mod|apply in32_seed_fill].
Qed.
